(** * DocumentRepositoryManager: the version-tracked document repository

    A shallow embedding of the class [DocumentRepositoryManager] of
    [110 - Gemini File Search Tool/06_test_python_document_repository_manager.py]
    and of the claims of the specification about it.

    The class is a facade over a remote file-search store.  Its methods
    are embedded as computations in a state-and-exception monad over a
    state made of the object's attributes ([self]) and of the world the
    object talks to: the store backend reached through the module-level
    [client], the local file system, and the wall clock.  The polling
    loop of [_wait_for_operation] has no bound in the source; it is
    embedded with a fuel parameter, and running out of fuel is the third
    outcome, [Timeout], which is neither a result nor an exception.

    The backend is not code of the repository: it is modelled as one
    store whose listing is a snapshot, whose delete removes the document
    of the given identifier, whose upload stores a document under a
    fresh identifier and refuses a path that is no local file, and which
    may answer any call with an exception.  Writing the log file always
    succeeds.  The calls to [print] are left out, and so are
    [connect_or_create] and [query], about which nothing is stated. *)

From Stdlib Require Import ZArith Ascii String List Lia.
From stdpp Require Import base option list gmap strings fin_maps.

Local Open Scope string_scope.
Local Open Scope list_scope.

(** ** Values that cross the boundary with the backend *)

(** Custom metadata: the caller's dicts [{"key": k, "string_value": v}],
    [{"key": k, "numeric_value": n}], ...  The manager passes them on
    as they are. *)
Inductive MetadataValue :=
| string_value (s : string)
| numeric_value (n : Z)
| string_list_value (l : list string).

Record Metadata := { key : string; value : MetadataValue }.

(** JSON documents, as [json.dump] writes and [json.load] reads them.
    The model keeps a document as its tree; the text between the two
    library calls is the library's. *)
#[warnings="-register-all"]
Inductive json :=
| JNull
| JBool (b : bool)
| JNum (n : Z)
| JStr (s : string)
| JArr (items : list json)
| JObj (members : list (string * json)).

(** The [config] dict handed to [upload_to_file_search_store]. *)
Record UploadConfig := {
  cfg_display_name : string;
  cfg_custom_metadata : option (list Metadata);
  cfg_chunking_config : option json
}.

(** A document of the store, as the backend lists it.  [doc_name] is the
    backend's identifier, opaque to the manager. *)
Record Document := {
  doc_name : nat;
  doc_display_name : string;
  doc_state : string;
  doc_size_bytes : nat;
  doc_custom_metadata : list Metadata
}.

(** An operation handle; [op_done] is the flag the polling loop reads,
    [op_polls] counts how often the handle was fetched again. *)
Record Operation := { op_id : nat; op_polls : nat; op_done : bool }.

(** Exceptions: the class and [str(e)]. *)
Record Exn := { exn_class : string; exn_message : string }.

Definition str (e : Exn) : string := exn_message e.

(** Calls made on [client], in the order they are made. *)
Inductive Call :=
| documents_list_call (parent : string)
| documents_delete_call (name : nat) (force : bool)
| upload_call (file : string) (store : string) (config : UploadConfig)
| operations_get_call (op : nat).

(** ** Wall clock *)

Record datetime := {
  year : nat; month : nat; day : nat;
  hour : nat; minute : nat; second : nat; microsecond : nat
}.

Definition digit (n : nat) : ascii := ascii_of_nat (48 + n mod 10).

Fixpoint zero_padded (width n : nat) : string :=
  match width with
  | 0 => ""
  | S w => zero_padded w (n / 10) +:+ String (digit n) ""
  end.

(** [datetime.isoformat()]: the fraction is left out when it is zero. *)
Definition isoformat (t : datetime) : string :=
  zero_padded 4 (year t) +:+ "-" +:+ zero_padded 2 (month t) +:+ "-" +:+
  zero_padded 2 (day t) +:+ "T" +:+ zero_padded 2 (hour t) +:+ ":" +:+
  zero_padded 2 (minute t) +:+ ":" +:+ zero_padded 2 (second t) +:+
  (if microsecond t is 0 then "" else "." +:+ zero_padded 6 (microsecond t)).

(** [datetime.strftime("%Y%m%d_%H%M%S")]. *)
Definition strftime_Ymd_HMS (t : datetime) : string :=
  zero_padded 4 (year t) +:+ zero_padded 2 (month t) +:+
  zero_padded 2 (day t) +:+ "_" +:+ zero_padded 2 (hour t) +:+
  zero_padded 2 (minute t) +:+ zero_padded 2 (second t).

(** ** The version log *)

(** One log entry is a dict of strings: ['action'], ['timestamp'] and,
    by the method that wrote it, ['file_path'] or ['version'].  The log
    maps a display name to the list of its entries. *)
Abbreviation Entry := (gmap string string).
Abbreviation VersionLog := (gmap string (list (gmap string string))).

(** ** State *)

(** The attributes of the object. *)
Record Manager := {
  store_name : string;
  version_log_path : string;
  version_log : VersionLog
}.

(** The world of the object.

    - [documents]: the documents of the store, in the order the backend
      lists them; [next_document] and [next_operation] are the backend's
      counters for fresh identifiers.
    - [op_states i k]: the [done] flag of operation [i] when its handle
      is read for the [k]-th time ([k = 0] is the handle the upload
      returns).
    - [fault_at k]: the exception, if any, with which the backend
      answers the [k]-th call made on it.
    - [calls]: the calls made so far, oldest first.
    - [local_files]: the local files that can be uploaded, with their
      sizes; [disk]: the JSON files the manager reads and writes.
    - [wall_clock k]: what the [k]-th reading of the clock returns;
      [slept]: the seconds spent in [time.sleep]. *)
Record World := {
  documents : list Document;
  next_document : nat;
  next_operation : nat;
  op_states : nat -> nat -> bool;
  fault_at : nat -> option Exn;
  calls : list Call;
  local_files : gmap string nat;
  disk : gmap string json;
  wall_clock : nat -> datetime;
  clock_reads : nat;
  slept : nat
}.

Record State := { self : Manager; world : World }.

(** ** The monad *)

Inductive outcome (A : Type) :=
| Ret (a : A) (s : State)
| Raise (e : Exn) (s : State)
| Timeout.
Arguments Ret {A} a s.
Arguments Raise {A} e s.
Arguments Timeout {A}.

Definition M (A : Type) : Type := State -> outcome A.

Definition ret {A} (a : A) : M A := fun s => Ret a s.

Definition bind {A B} (m : M A) (f : A -> M B) : M B := fun s =>
  match m s with
  | Ret a s' => f a s'
  | Raise e s' => Raise e s'
  | Timeout => Timeout
  end.

Definition raise {A} (e : Exn) : M A := fun s => Raise e s.

Definition gets {A} (f : State -> A) : M A := fun s => Ret (f s) s.

Definition modify (f : State -> State) : M unit := fun s => Ret tt (f s).

Declare Scope py_scope.
Delimit Scope py_scope with py.
Notation "x <- m ;; k" := (bind m (fun x => k))
  (at level 100, m at next level, right associativity) : py_scope.
Notation "m ;; k" := (bind m (fun _ => k))
  (at level 100, right associativity) : py_scope.
Local Open Scope py_scope.

(** ** Updates of the state *)

Definition set_version_log (f : VersionLog -> VersionLog) (s : State) : State :=
  {| self := {| store_name := store_name (self s);
                version_log_path := version_log_path (self s);
                version_log := f (version_log (self s)) |};
     world := world s |}.

Definition set_world (f : World -> World) (s : State) : State :=
  {| self := self s; world := f (world s) |}.

Definition record_call (c : Call) (w : World) : World :=
  {| documents := documents w; next_document := next_document w;
     next_operation := next_operation w; op_states := op_states w;
     fault_at := fault_at w; calls := calls w ++ [c];
     local_files := local_files w; disk := disk w;
     wall_clock := wall_clock w; clock_reads := clock_reads w;
     slept := slept w |}.

Definition set_documents (f : list Document -> list Document) (w : World) : World :=
  {| documents := f (documents w); next_document := next_document w;
     next_operation := next_operation w; op_states := op_states w;
     fault_at := fault_at w; calls := calls w;
     local_files := local_files w; disk := disk w;
     wall_clock := wall_clock w; clock_reads := clock_reads w;
     slept := slept w |}.

Definition store_document (d : Document) (w : World) : World :=
  {| documents := documents w ++ [d]; next_document := S (next_document w);
     next_operation := S (next_operation w); op_states := op_states w;
     fault_at := fault_at w; calls := calls w;
     local_files := local_files w; disk := disk w;
     wall_clock := wall_clock w; clock_reads := clock_reads w;
     slept := slept w |}.

Definition write_file (path : string) (j : json) (w : World) : World :=
  {| documents := documents w; next_document := next_document w;
     next_operation := next_operation w; op_states := op_states w;
     fault_at := fault_at w; calls := calls w;
     local_files := local_files w; disk := <[path := j]> (disk w);
     wall_clock := wall_clock w; clock_reads := clock_reads w;
     slept := slept w |}.

Definition tick (w : World) : World :=
  {| documents := documents w; next_document := next_document w;
     next_operation := next_operation w; op_states := op_states w;
     fault_at := fault_at w; calls := calls w;
     local_files := local_files w; disk := disk w;
     wall_clock := wall_clock w; clock_reads := S (clock_reads w);
     slept := slept w |}.

Definition sleep (secs : nat) (w : World) : World :=
  {| documents := documents w; next_document := next_document w;
     next_operation := next_operation w; op_states := op_states w;
     fault_at := fault_at w; calls := calls w;
     local_files := local_files w; disk := disk w;
     wall_clock := wall_clock w; clock_reads := clock_reads w;
     slept := slept w + secs |}.

(** ** The world's operations *)

(** [datetime.now()]. *)
Definition datetime_now : M datetime := fun s =>
  Ret (wall_clock (world s) (clock_reads (world s))) (set_world tick s).

(** [time.sleep(secs)]. *)
Definition time_sleep (secs : nat) : M unit := modify (set_world (sleep secs)).

(** Every call on [client] is recorded, and fails with the exception the
    backend has for it, if it has one. *)
Definition backend_call (c : Call) : M unit := fun s =>
  let s' := set_world (record_call c) s in
  match fault_at (world s) (length (calls (world s))) with
  | Some e => Raise e s'
  | None => Ret tt s'
  end.

(** [client.file_search_stores.documents.list(parent=...)]: the pager,
    taken as the listing at the time of the call. *)
Definition documents_list (parent : string) : M (list Document) :=
  backend_call (documents_list_call parent) ;;
  gets (fun s => documents (world s)).

Definition not_found (name : nat) : Exn :=
  {| exn_class := "ClientError"; exn_message := "404 NOT_FOUND" |}.

(** [client.file_search_stores.documents.delete(name=..., config={'force': ...})]. *)
Definition documents_delete (name : nat) (force : bool) : M unit :=
  backend_call (documents_delete_call name force) ;;
  docs <- gets (fun s => documents (world s)) ;;
  if existsb (fun d => Nat.eqb (doc_name d) name) docs
  then modify (set_world (set_documents (filter (fun d => doc_name d <> name))))
  else raise (not_found name).

Definition file_not_found (file : string) : Exn :=
  {| exn_class := "FileNotFoundError";
     exn_message := file +:+ " is not a valid file path." |}.

(** [client.file_search_stores.upload_to_file_search_store(file=...,
    file_search_store_name=..., config=...)]: the client reads the local
    file, the backend stores a document under a fresh identifier and
    answers with an operation handle. *)
Definition upload_to_file_search_store
    (file : string) (file_search_store_name : string) (config : UploadConfig)
    : M Operation :=
  backend_call (upload_call file file_search_store_name config) ;;
  files <- gets (fun s => local_files (world s)) ;;
  match files !! file with
  | None => raise (file_not_found file)
  | Some size =>
      w <- gets world ;;
      modify (set_world (store_document
        {| doc_name := next_document w;
           doc_display_name := cfg_display_name config;
           doc_state := "STATE_ACTIVE";
           doc_size_bytes := size;
           doc_custom_metadata := default [] (cfg_custom_metadata config) |})) ;;
      ret {| op_id := next_operation w; op_polls := 0;
             op_done := op_states w (next_operation w) 0 |}
  end.

(** [client.operations.get(operation)]. *)
Definition operations_get (operation : Operation) : M Operation :=
  backend_call (operations_get_call (op_id operation)) ;;
  w <- gets world ;;
  ret {| op_id := op_id operation; op_polls := S (op_polls operation);
         op_done := op_states w (op_id operation) (S (op_polls operation)) |}.

(** ** Python's truth values and [os.path] *)

(** [x or y] on an optional string: [None] and [""] are false. *)
Definition str_or (x : option string) (y : string) : string :=
  match x with
  | Some (String c r) => String c r
  | _ => y
  end.

(** [if l:] on an optional list: [None] and [[]] are false. *)
Definition list_truthy {A} (l : option (list A)) : bool :=
  match l with
  | Some (_ :: _) => true
  | _ => false
  end.

(** [if d:] on an optional dict. *)
Definition dict_truthy (d : option json) : bool :=
  match d with
  | Some (JObj (_ :: _)) => true
  | _ => false
  end.

(** [os.path.basename]: what follows the last slash. *)
Fixpoint basename_from (acc p : string) : string :=
  match p with
  | "" => acc
  | String c r =>
      if Ascii.eqb c "/" then basename_from "" r
      else basename_from (acc +:+ String c "") r
  end.

Definition basename (p : string) : string := basename_from "" p.

(** ** [json.dump] and [json.load] on a version log *)

(** A dict from a list of members, as [json.load] builds it: of two
    members with the same name the later one stays. *)
Definition dict_of {V} (members : list (string * V)) : gmap string V :=
  fold_left (fun d kv => <[kv.1 := kv.2]> d) members ∅.

Definition dump_entry (e : Entry) : json :=
  JObj (prod_map id JStr <$> map_to_list e).

Definition dump_history (h : list Entry) : json :=
  JArr (dump_entry <$> h).

(** [json.dump(self.version_log, f, indent=2, default=str)].  All the
    values of a version log are strings, so [default] is never called. *)
Definition json_dump (log : VersionLog) : json :=
  JObj (prod_map id dump_history <$> map_to_list log).

Definition load_str (j : json) : option string :=
  match j with JStr v => Some v | _ => None end.

Definition load_entry (j : json) : option Entry :=
  match j with
  | JObj members =>
      dict_of <$> mapM (fun kv => pair kv.1 <$> load_str kv.2) members
  | _ => None
  end.

Definition load_history (j : json) : option (list Entry) :=
  match j with
  | JArr items => mapM load_entry items
  | _ => None
  end.

(** [json.load(f)], read at the type of a version log.  A document of
    another shape has no reading at this type. *)
Definition json_load (j : json) : option VersionLog :=
  match j with
  | JObj members =>
      dict_of <$> mapM (fun kv => pair kv.1 <$> load_history kv.2) members
  | _ => None
  end.

Definition not_a_version_log : Exn :=
  {| exn_class := "TypeError"; exn_message := "not a version log" |}.

(** ** The methods of [DocumentRepositoryManager] *)

Definition _load_version_log : M unit :=
  path <- gets (fun s => version_log_path (self s)) ;;
  files <- gets (fun s => disk (world s)) ;;
  match files !! path with
  | Some j =>
      match json_load j with
      | Some log => modify (set_version_log (fun _ => log))
      | None => raise not_a_version_log
      end
  | None => modify (set_version_log (fun _ => ∅))
  end.

Definition _save_version_log : M unit :=
  path <- gets (fun s => version_log_path (self s)) ;;
  log <- gets (fun s => version_log (self s)) ;;
  modify (set_world (write_file path (json_dump log))).

(** [DocumentRepositoryManager(store_name, version_log_path)], run in a
    world [w]. *)
Definition __init__ (store_name : string) (version_log_path : option string)
    (w : World) : outcome unit :=
  _load_version_log
    {| self := {| store_name := store_name;
                  version_log_path :=
                    str_or version_log_path (store_name +:+ "_versions.json");
                  version_log := ∅ |};
       world := w |}.

Fixpoint _find_in (pager : list Document) (display_name : string)
    : option Document :=
  match pager with
  | [] => None
  | doc :: rest =>
      if String.eqb (doc_display_name doc) display_name then Some doc
      else _find_in rest display_name
  end.

Definition _find_document (display_name : string) : M (option Document) :=
  store <- gets (fun s => store_name (self s)) ;;
  pager <- documents_list store ;;
  ret (_find_in pager display_name).

Fixpoint _wait_for_operation (fuel : nat) (operation : Operation)
    : M Operation :=
  if op_done operation then ret operation
  else
    match fuel with
    | 0 => fun _ => Timeout
    | S fuel' =>
        time_sleep 2 ;;
        operation' <- operations_get operation ;;
        _wait_for_operation fuel' operation'
    end.

(** The dict [add] returns. *)
Record AddResult := { res_display_name : string; res_status : string }.

Definition add (fuel : nat) (file_path : string) (display_name : option string)
    (metadata : option (list Metadata)) (chunking_config : option json)
    : M AddResult :=
  let display_name := str_or display_name (basename file_path) in
  let config :=
    {| cfg_display_name := display_name;
       cfg_custom_metadata := if list_truthy metadata then metadata else None;
       cfg_chunking_config :=
         if dict_truthy chunking_config then chunking_config else None |} in
  store <- gets (fun s => store_name (self s)) ;;
  operation <- upload_to_file_search_store file_path store config ;;
  _wait_for_operation fuel operation ;;
  now <- datetime_now ;;
  modify (set_version_log (fun log =>
    <[display_name := [ {[ "action" := "added";
                           "timestamp" := isoformat now;
                           "file_path" := file_path ]} ]]> log)) ;;
  _save_version_log ;;
  ret {| res_display_name := display_name; res_status := "added" |}.

(** [try: body  except Exception as e: handler(e)]. *)
Definition try_except {A} (body : M A) (handler : Exn -> M A) : M A := fun s =>
  match body s with
  | Raise e s' => handler e s'
  | other => other
  end.

(** One entry of the list given to [add_batch]: a dict with ['path'] and
    optional ['name'] and ['metadata']. *)
Record BatchFile := {
  path : string;
  name : option string;
  metadata : option (list Metadata)
}.

(** One entry of the list [add_batch] returns: the dict of [add], or
    the dict with ['path'], ['status'] and ['error']. *)
Inductive BatchOutcome :=
| batch_result (result : AddResult)
| batch_failure (path status error : string).

Fixpoint add_batch_from (fuel : nat) (files : list BatchFile)
    (results : list BatchOutcome) : M (list BatchOutcome) :=
  match files with
  | [] => ret results
  | f :: rest =>
      entry <- try_except
        (result <- add fuel (path f) (name f) (metadata f) None ;;
         ret (batch_result result))
        (fun e => ret (batch_failure (path f) "failed" (str e))) ;;
      add_batch_from fuel rest (results ++ [entry])
  end.

Definition add_batch (fuel : nat) (files : list BatchFile)
    : M (list BatchOutcome) :=
  add_batch_from fuel files [].

Definition remove (display_name : string) : M bool :=
  doc <- _find_document display_name ;;
  match doc with
  | None => ret false
  | Some doc =>
      documents_delete (doc_name doc) true ;;
      log <- gets (fun s => version_log (self s)) ;;
      match log !! display_name with
      | Some history =>
          now <- datetime_now ;;
          modify (set_version_log (fun log =>
            <[display_name := history ++
                [ {[ "action" := "removed";
                     "timestamp" := isoformat now ]} ]]> log)) ;;
          _save_version_log
      | None => ret tt
      end ;;
      ret true
  end.

(** The dict [remove_batch] returns. *)
Record RemoveBatchResult := { removed : list string; not_found_names : list string }.

Fixpoint remove_batch_from (display_names : list string)
    (results : RemoveBatchResult) : M RemoveBatchResult :=
  match display_names with
  | [] => ret results
  | name :: rest =>
      found <- remove name ;;
      remove_batch_from rest
        (if found
         then {| removed := removed results ++ [name];
                 not_found_names := not_found_names results |}
         else {| removed := removed results;
                 not_found_names := not_found_names results ++ [name] |})
  end.

Definition remove_batch (display_names : list string) : M RemoveBatchResult :=
  remove_batch_from display_names {| removed := []; not_found_names := [] |}.

Fixpoint clear_all_from (pager : list Document) (count : nat) : M nat :=
  match pager with
  | [] => ret count
  | doc :: rest =>
      documents_delete (doc_name doc) true ;;
      clear_all_from rest (count + 1)
  end.

Definition clear_all : M nat :=
  store <- gets (fun s => store_name (self s)) ;;
  pager <- documents_list store ;;
  clear_all_from pager 0.

(** The dict [replace] returns. *)
Record ReplaceResult := { rep_display_name : string; rep_version : string }.

Definition version_entry (version : string) : Metadata :=
  {| key := "version"; value := string_value version |}.

Definition replace (fuel : nat) (display_name new_file_path : string)
    (version : option string) (metadata : option (list Metadata))
    : M ReplaceResult :=
  version <-
    match version with
    | Some (String c r) => ret (String c r)
    | _ => now <- datetime_now ;; ret (strftime_Ymd_HMS now)
    end ;;
  existing <- _find_document display_name ;;
  match existing with
  | Some doc => documents_delete (doc_name doc) true
  | None => ret tt
  end ;;
  let version_metadata :=
    [version_entry version] ++
    (if list_truthy metadata then default [] metadata else []) in
  let config :=
    {| cfg_display_name := display_name;
       cfg_custom_metadata := Some version_metadata;
       cfg_chunking_config := None |} in
  store <- gets (fun s => store_name (self s)) ;;
  operation <- upload_to_file_search_store new_file_path store config ;;
  _wait_for_operation fuel operation ;;
  now <- datetime_now ;;
  modify (set_version_log (fun log =>
    <[display_name := default [] (log !! display_name) ++
        [ {[ "action" := if existing is Some _ then "replaced" else "added";
             "version" := version;
             "timestamp" := isoformat now ]} ]]> log)) ;;
  _save_version_log ;;
  ret {| rep_display_name := display_name; rep_version := version |}.

(** One dict of the list [list] returns. *)
Record Listed := {
  listed_name : nat;
  listed_display_name : string;
  listed_state : string;
  listed_size_bytes : nat
}.

(** The method [list]. *)
Definition list_ : M (list Listed) :=
  store <- gets (fun s => store_name (self s)) ;;
  pager <- documents_list store ;;
  ret ((fun doc => {| listed_name := doc_name doc;
                      listed_display_name := doc_display_name doc;
                      listed_state := doc_state doc;
                      listed_size_bytes := doc_size_bytes doc |}) <$> pager).

Definition get_history (display_name : string) : M (list Entry) :=
  gets (fun s => default [] (version_log (self s) !! display_name)).

(** * Definitions for the statements *)

(** ** What a computation leaves as it was *)

(** [keeps R m]: whichever way [m] ends, by a result or by an exception,
    the state it ends in is related by [R] to the state it started in. *)
Definition keeps {A} (R : relation State) (m : M A) : Prop :=
  forall s,
    match m s with
    | Ret _ s' | Raise _ s' => R s s'
    | Timeout => True
    end.

(** What no method changes: the behaviour of the backend, the local
    files to upload and the clock. *)
Definition same_env (s s' : State) : Prop :=
  op_states (world s') = op_states (world s) /\
  fault_at (world s') = fault_at (world s) /\
  local_files (world s') = local_files (world s) /\
  wall_clock (world s') = wall_clock (world s).

(** The version log is left alone, in the object and in its file. *)
Definition same_log (s s' : State) : Prop :=
  self s' = self s /\ disk (world s') = disk (world s).

(** The version log only grows: every history is a prefix of what it
    becomes. *)
Definition log_grows (s s' : State) : Prop :=
  forall display_name history,
    version_log (self s) !! display_name = Some history ->
    exists more,
      version_log (self s') !! display_name = Some (history ++ more).

(** ** The backend, call by call *)

(** The backend answers every call. *)
Definition healthy (s : State) : Prop :=
  forall k, fault_at (world s) k = None.

(** The index of the call that comes next. *)
Definition next_call (s : State) : nat := length (calls (world s)).

(** The state after an answered
    [documents.delete(name=..., config={'force': ...})]. *)
Definition delete_state (name : nat) (force : bool) (s : State) : State :=
  set_world (fun w =>
    set_documents (filter (fun d => doc_name d <> name))
      (record_call (documents_delete_call name force) w)) s.

(** The handle an answered upload returns. *)
Definition first_handle (w : World) : Operation :=
  {| op_id := next_operation w; op_polls := 0;
     op_done := op_states w (next_operation w) 0 |}.

(** The document an answered upload stores. *)
Definition uploaded (config : UploadConfig) (size : nat) (w : World) : Document :=
  {| doc_name := next_document w;
     doc_display_name := cfg_display_name config;
     doc_state := "STATE_ACTIVE";
     doc_size_bytes := size;
     doc_custom_metadata := default [] (cfg_custom_metadata config) |}.

(** The state after an answered upload. *)
Definition upload_state (file store : string) (config : UploadConfig)
    (size : nat) (s : State) : State :=
  set_world (fun w =>
    store_document (uploaded config size w)
      (record_call (upload_call file store config) w)) s.

(** ** The sequence of handles of the polling loop *)

(** The handle [client.operations.get] answers with. *)
Definition next_handle (w : World) (operation : Operation) : Operation :=
  {| op_id := op_id operation; op_polls := S (op_polls operation);
     op_done := op_states w (op_id operation) (S (op_polls operation)) |}.

(** The state after one round of the loop: the sleep, then the call. *)
Definition poll_state (operation : Operation) (s : State) : State :=
  set_world (fun w =>
    record_call (operations_get_call (op_id operation)) (sleep 2 w)) s.

(** The [k]-th handle the loop looks at: the handle it is given, then
    the handles the backend answers with. *)
Definition handle_at (w : World) (operation : Operation) (k : nat) : Operation :=
  match k with
  | 0 => operation
  | S _ =>
      {| op_id := op_id operation; op_polls := op_polls operation + k;
         op_done := op_states w (op_id operation) (op_polls operation + k) |}
  end.

(** The [done] flag of the [k]-th handle. *)
Definition polled (w : World) (operation : Operation) (k : nat) : bool :=
  op_done (handle_at w operation k).

(** The state after [k] rounds of the loop on operation [id]. *)
Definition polls_state (k id : nat) (s : State) : State :=
  set_world (fun w =>
    {| documents := documents w; next_document := next_document w;
       next_operation := next_operation w; op_states := op_states w;
       fault_at := fault_at w;
       calls := calls w ++ replicate k (operations_get_call id);
       local_files := local_files w; disk := disk w;
       wall_clock := wall_clock w; clock_reads := clock_reads w;
       slept := slept w + 2 * k |}) s.

(** Every operation of the backend is done within [fuel] polls. *)
Definition done_within (fuel : nat) (s : State) : Prop :=
  forall id, exists k, k <= fuel /\ op_states (world s) id k = true.

(** ** What the methods build *)

(** The [config] that [add] builds. *)
Definition add_config (file_path : string) (display_name : option string)
    (metadata : option (list Metadata)) (chunking_config : option json)
    : UploadConfig :=
  {| cfg_display_name := str_or display_name (basename file_path);
     cfg_custom_metadata := if list_truthy metadata then metadata else None;
     cfg_chunking_config :=
       if dict_truthy chunking_config then chunking_config else None |}.

(** The log entry of [add]. *)
Definition added_entry (file_path : string) (now : datetime) : Entry :=
  {[ "action" := "added"; "timestamp" := isoformat now;
     "file_path" := file_path ]}.

(** The log entry of [remove]. *)
Definition removed_entry (now : datetime) : Entry :=
  {[ "action" := "removed"; "timestamp" := isoformat now ]}.

(** The version label [replace] works with, given the reading of the
    clock it takes when the caller gives none. *)
Definition effective_version (version : option string) (now : datetime)
    : string :=
  match version with
  | Some (String c r) => String c r
  | _ => strftime_Ymd_HMS now
  end.

(** How often [replace] has read the clock when it comes to the log
    entry. *)
Definition reads_for_version (version : option string) : nat :=
  match version with
  | Some (String _ _) => 0
  | _ => 1
  end.

(** The [config] that [replace] builds. *)
Definition replace_config (display_name version : string)
    (metadata : option (list Metadata)) : UploadConfig :=
  {| cfg_display_name := display_name;
     cfg_custom_metadata := Some (version_entry version :: default [] metadata);
     cfg_chunking_config := None |}.

(** The log entry of [replace]; [existing] is what [_find_document]
    returned. *)
Definition replaced_entry (existing : option Document) (version : string)
    (now : datetime) : Entry :=
  {[ "action" := if existing is Some _ then "replaced" else "added";
     "version" := version;
     "timestamp" := isoformat now ]}.

(** The entries of a batch done one after the other, each from the state
    the one before it left: an entry whose [add] returns gives the dict
    of [add], an entry whose [add] raises gives the "failed" dict with
    the text of the exception, and the next entry is done all the same. *)
Inductive batch_run (fuel : nat)
    : list BatchFile -> State -> list BatchOutcome -> State -> Prop :=
| batch_run_nil s : batch_run fuel [] s [] s
| batch_run_added f files s result s1 results s' :
    add fuel (path f) (name f) (metadata f) None s = Ret result s1 ->
    batch_run fuel files s1 results s' ->
    batch_run fuel (f :: files) s (batch_result result :: results) s'
| batch_run_failed f files s e s1 results s' :
    add fuel (path f) (name f) (metadata f) None s = Raise e s1 ->
    batch_run fuel files s1 results s' ->
    batch_run fuel (f :: files) s
      (batch_failure (path f) "failed" (str e) :: results) s'.

(** ** A store to run the methods on *)

Definition example_clock (k : nat) : datetime :=
  {| year := 2025; month := 11; day := 3;
     hour := 9; minute := 30; second := k; microsecond := 0 |}.

Definition example_document (id : nat) (display_name : string) : Document :=
  {| doc_name := id; doc_display_name := display_name;
     doc_state := "STATE_ACTIVE"; doc_size_bytes := 100;
     doc_custom_metadata := [] |}.

(** Every operation is done from its second poll on. *)
Definition done_at_second_poll : nat -> nat -> bool := fun _ k => Nat.leb 2 k.

(** No operation is ever done. *)
Definition never_done : nat -> nat -> bool := fun _ _ => false.

(** Four documents, two of them under the same display name, and two
    local files. *)
Definition example_world (faults : nat -> option Exn)
    (states : nat -> nat -> bool) : World :=
  {| documents := [ example_document 0 "Product Manual";
                    example_document 1 "FAQ Document";
                    example_document 2 "api_reference.txt";
                    example_document 3 "FAQ Document" ];
     next_document := 4;
     next_operation := 4;
     op_states := states;
     fault_at := faults;
     calls := [];
     local_files := {[ "test_documents/sample_manual.txt" := 2048;
                       "test_documents/faq.txt" := 512 ]};
     disk := ∅;
     wall_clock := example_clock;
     clock_reads := 0;
     slept := 0 |}.

(** The version log knows two of the three display names. *)
Definition example_log : VersionLog :=
  {[ "Product Manual" :=
       [ added_entry "test_documents/sample_manual.txt" (example_clock 58) ];
     "FAQ Document" :=
       [ added_entry "test_documents/faq.txt" (example_clock 59) ] ]}.

Definition example_state_with (faults : nat -> option Exn)
    (states : nat -> nat -> bool) : State :=
  {| self := {| store_name := "fileSearchStores/test-repo-manager";
                version_log_path := "test_repo_versions.json";
                version_log := example_log |};
     world := example_world faults states |}.

Definition example_state (faults : nat -> option Exn) : State :=
  example_state_with faults done_at_second_poll.

Definition no_faults : nat -> option Exn := fun _ => None.

Definition unavailable : Exn :=
  {| exn_class := "ServerError"; exn_message := "503 UNAVAILABLE" |}.

(** The [k]-th call fails. *)
Definition fault_on (k : nat) : nat -> option Exn :=
  fun i => if Nat.eqb i k then Some unavailable else None.

Definition example_metadata : list Metadata :=
  [ {| key := "category"; value := string_value "tutorial" |};
    {| key := "pages"; value := numeric_value 12 |} ].

Definition example_batch : list BatchFile :=
  [ {| path := "test_documents/faq.txt"; name := Some "FAQ v2";
       metadata := None |};
    {| path := "test_documents/missing.txt"; name := None;
       metadata := None |};
    {| path := "test_documents/sample_manual.txt"; name := None;
       metadata := Some [ {| key := "category";
                             value := string_value "reference" |} ] |} ].

(** ** Invariants of the version log *)

(** How a computation ended: [P] holds of the state it left, whether it
    returned or raised. *)
Definition ends_in {A} (P : State -> Prop) (o : outcome A) : Prop :=
  match o with
  | Ret _ s' | Raise _ s' => P s'
  | Timeout => True
  end.

(** [P] before gives [P] after. *)
Definition preserves (P : State -> Prop) : relation State :=
  fun s s' => P s -> P s'.

(** The log file says what the object holds: reading the file at
    [version_log_path] gives [version_log], and when there is no file
    the log is empty. *)
Definition in_sync (s : State) : Prop :=
  match disk (world s) !! version_log_path (self s) with
  | Some j => json_load j = Some (version_log (self s))
  | None => version_log (self s) = ∅
  end.

(** No display name leaves the version log. *)
Definition keys_kept (s s' : State) : Prop :=
  forall display_name,
    is_Some (version_log (self s) !! display_name) ->
    is_Some (version_log (self s') !! display_name).

(** Every display name of the version log has at least one entry. *)
Definition histories_nonempty (s : State) : Prop :=
  forall display_name history,
    version_log (self s) !! display_name = Some history -> history <> [].

(** The state after the three steps that end [add], [remove] (of a
    logged name) and [replace]: the clock is read, the history of
    [display_name] becomes [history], the log is saved. *)
Definition logged_state (display_name : string) (history : list Entry)
    (s : State) : State :=
  set_world
    (write_file (version_log_path (self s))
       (json_dump (<[display_name := history]> (version_log (self s)))))
    (set_version_log (fun log => <[display_name := history]> log)
       (set_world tick s)).

(** The object stays bound to its store and to its log file. *)
Definition same_binding (s s' : State) : Prop :=
  store_name (self s') = store_name (self s) /\
  version_log_path (self s') = version_log_path (self s).

(** The example store after its log was saved. *)
Definition saved_example : State :=
  set_world (write_file "test_repo_versions.json" (json_dump example_log))
    (example_state no_faults).

(** ** Documents by display name *)

(** The listing has a document of that display name. *)
Definition in_store (docs : list Document) (display_name : string) : Prop :=
  is_Some (_find_in docs display_name).

(** How many documents of the listing have that display name. *)
Definition count_named (display_name : string) (docs : list Document) : nat :=
  length (filter (fun d => doc_display_name d = display_name) docs).

(** The state [remove] leaves when it has found [doc] and the backend
    has answered. *)
Definition remove_state (display_name : string) (doc : Document) (s : State)
    : State :=
  let s1 :=
    delete_state (doc_name doc) true
      (set_world (record_call (documents_list_call (store_name (self s)))) s) in
  match version_log (self s) !! display_name with
  | Some history =>
      logged_state display_name
        (history ++
           [removed_entry (wall_clock (world s) (clock_reads (world s)))]) s1
  | None => s1
  end.

(** * The stores and [connect_or_create] *)

(** A file-search store, as the backend lists it. *)
Record FileSearchStore := { fss_name : string; fss_display_name : string }.

(** The part of the backend that keeps the stores, apart from the world
    of the one store a manager works on: the stores in listing order,
    the name the backend gives to the [k]-th store it creates, how many
    it has created, the exception, if any, with which it answers the
    [k]-th call on [client.file_search_stores], and how many such calls
    were made. *)
Record StoreService := {
  stores : list FileSearchStore;
  fresh_store_name : nat -> string;
  stores_created : nat;
  stores_fault_at : nat -> option Exn;
  stores_calls : nat
}.

Definition stores_called (svc : StoreService) : StoreService :=
  {| stores := stores svc; fresh_store_name := fresh_store_name svc;
     stores_created := stores_created svc;
     stores_fault_at := stores_fault_at svc;
     stores_calls := S (stores_calls svc) |}.

Definition store_created (store : FileSearchStore) (svc : StoreService)
    : StoreService :=
  {| stores := stores svc ++ [store]; fresh_store_name := fresh_store_name svc;
     stores_created := S (stores_created svc);
     stores_fault_at := stores_fault_at svc;
     stores_calls := stores_calls svc |}.

(** How [connect_or_create] ends: a call on the stores raised, or the
    class was called, with what came of building the object. *)
Inductive connection :=
| Connected (svc : StoreService) (built : outcome unit)
| ConnectFailed (e : Exn) (svc : StoreService).

(** The loop of [connect_or_create] over the pager. *)
Fixpoint _find_store (pager : list FileSearchStore) (display_name : string)
    : option FileSearchStore :=
  match pager with
  | [] => None
  | store :: rest =>
      if String.eqb (fss_display_name store) display_name then Some store
      else _find_store rest display_name
  end.

(** [DocumentRepositoryManager.connect_or_create(display_name)], run
    with the store service [svc] and in the world [w] that the object
    built will talk to. *)
Definition connect_or_create (display_name : string) (svc : StoreService)
    (w : World) : connection :=
  match stores_fault_at svc (stores_calls svc) with
  | Some e => ConnectFailed e (stores_called svc)
  | None =>
      let svc := stores_called svc in
      match _find_store (stores svc) display_name with
      | Some store => Connected svc (__init__ (fss_name store) None w)
      | None =>
          match stores_fault_at svc (stores_calls svc) with
          | Some e => ConnectFailed e (stores_called svc)
          | None =>
              let store :=
                {| fss_name := fresh_store_name svc (stores_created svc);
                   fss_display_name := display_name |} in
              Connected (store_created store (stores_called svc))
                        (__init__ (fss_name store) None w)
          end
      end
  end.

(** The store service answers every call. *)
Definition stores_healthy (svc : StoreService) : Prop :=
  forall k, stores_fault_at svc k = None.

Definition example_stores : StoreService :=
  {| stores := [ {| fss_name := "fileSearchStores/docs-1";
                    fss_display_name := "docs" |};
                 {| fss_name := "fileSearchStores/test-repo-manager";
                    fss_display_name := "test-repo-manager" |};
                 {| fss_name := "fileSearchStores/docs-2";
                    fss_display_name := "docs" |} ];
     fresh_store_name := fun k =>
       "fileSearchStores/new-" +:+ zero_padded 3 k;
     stores_created := 0;
     stores_fault_at := fun _ => None;
     stores_calls := 0 |}.

(** * The environment check *)

(** [validate_environment()], run with [os.environ] as [environ]: the
    required variables that are unset or empty are collected, and named
    in a [ValueError] when there are any. *)
Definition validate_environment (environ : gmap string string) : Exn + unit :=
  let required_vars := ["GEMINI_API_KEY"] in
  let missing :=
    List.filter (fun var =>
                   match environ !! var with
                   | Some (String _ _) => false
                   | _ => true
                   end) required_vars in
  match missing with
  | [] => inr tt
  | _ :: _ =>
      inl {| exn_class := "ValueError";
             exn_message :=
               "Missing environment variables: " +:+ String.concat ", " missing |}
  end.

(** * Properties *)

(** ** Round trip of the version log through its file *)

Section json_round_trip.

Lemma dict_of_reverse {V} (members : list (string * V)) :
  dict_of members = list_to_map (reverse members).
Proof.
  unfold dict_of. rewrite <- (reverse_involutive members) at 1.
  induction (reverse members) as [|[k v] l IH]; [done|].
  rewrite reverse_cons, fold_left_app. simpl. by rewrite IH.
Qed.

Lemma dict_of_map_to_list {V} (d : gmap string V) :
  dict_of (map_to_list d) = d.
Proof.
  rewrite dict_of_reverse.
  rewrite <- (list_to_map_to_list d) at 2.
  apply list_to_map_proper.
  - rewrite fmap_reverse, reverse_Permutation. apply NoDup_fst_map_to_list.
  - apply reverse_Permutation.
Qed.

Lemma load_dump_entry (e : Entry) : load_entry (dump_entry e) = Some e.
Proof.
  unfold load_entry, dump_entry.
  rewrite mapM_fmap_Some by (by intros [k v]).
  simpl. by rewrite dict_of_map_to_list.
Qed.

Lemma load_dump_history (h : list Entry) :
  load_history (dump_history h) = Some h.
Proof.
  unfold load_history, dump_history.
  apply mapM_fmap_Some, load_dump_entry.
Qed.

Lemma json_load_dump (log : VersionLog) : json_load (json_dump log) = Some log.
Proof.
  unfold json_load, json_dump.
  rewrite mapM_fmap_Some.
  - simpl. by rewrite dict_of_map_to_list.
  - intros [k h]. cbn [prod_map fst snd id]. by rewrite load_dump_history.
Qed.

End json_round_trip.


(** ** Reasoning about computations *)

Lemma bind_Ret_inv {A B} (m : M A) (f : A -> M B) s b s' :
  bind m f s = Ret b s' ->
  exists a s1, m s = Ret a s1 /\ f a s1 = Ret b s'.
Proof. unfold bind. destruct (m s); naive_solver. Qed.

Lemma bind_Raise_inv {A B} (m : M A) (f : A -> M B) s e s' :
  bind m f s = Raise e s' ->
  m s = Raise e s' \/ exists a s1, m s = Ret a s1 /\ f a s1 = Raise e s'.
Proof. unfold bind. destruct (m s); naive_solver. Qed.

Lemma bind_Timeout_inv {A B} (m : M A) (f : A -> M B) s :
  bind m f s = Timeout ->
  m s = Timeout \/ exists a s1, m s = Ret a s1 /\ f a s1 = Timeout.
Proof. unfold bind. destruct (m s); naive_solver. Qed.

Section keeps.
Context (R : relation State) `{!PreOrder R}.

Lemma keeps_ret {A} (a : A) : keeps R (ret a).
Proof. intros s. simpl. reflexivity. Qed.

Lemma keeps_raise {A} e : keeps R (@raise A e).
Proof. intros s. simpl. reflexivity. Qed.

Lemma keeps_gets {A} (f : State -> A) : keeps R (gets f).
Proof. intros s. simpl. reflexivity. Qed.

Lemma keeps_modify f : (forall s, R s (f s)) -> keeps R (modify f).
Proof. intros Hf s. apply Hf. Qed.

Lemma keeps_bind {A B} (m : M A) (f : A -> M B) :
  keeps R m -> (forall a, keeps R (f a)) -> keeps R (bind m f).
Proof.
  intros Hm Hf s. unfold bind. specialize (Hm s).
  destruct (m s) as [a s1|e s1|]; [|done..].
  specialize (Hf a s1). destruct (f a s1); [etrans; eauto..|done].
Qed.

Lemma keeps_try_except {A} (m : M A) (h : Exn -> M A) :
  keeps R m -> (forall e, keeps R (h e)) -> keeps R (try_except m h).
Proof.
  intros Hm Hh s. unfold try_except. specialize (Hm s).
  destruct (m s) as [a s1|e s1|]; [done| |done].
  specialize (Hh e s1). destruct (h e s1); [etrans; eauto..|done].
Qed.

Lemma keeps_Ret {A} (m : M A) s a s' : keeps R m -> m s = Ret a s' -> R s s'.
Proof. intros Hm Hs. specialize (Hm s). by rewrite Hs in Hm. Qed.

Lemma keeps_Raise {A} (m : M A) s e s' :
  keeps R m -> m s = Raise e s' -> R s s'.
Proof. intros Hm Hs. specialize (Hm s). by rewrite Hs in Hm. Qed.
End keeps.

#[local] Instance same_env_preorder : PreOrder same_env.
Proof.
  split.
  - by intros s.
  - intros s1 s2 s3 (?&?&?&?) (?&?&?&?). unfold same_env. naive_solver congruence.
Qed.

#[local] Instance same_log_preorder : PreOrder same_log.
Proof.
  split.
  - by intros s.
  - intros s1 s2 s3 [??] [??]. unfold same_log. split; congruence.
Qed.

#[local] Instance log_grows_preorder : PreOrder log_grows.
Proof.
  split.
  - intros s n h Hh. exists []. by rewrite app_nil_r.
  - intros s1 s2 s3 H12 H23 n h Hh.
    destruct (H12 n h Hh) as [more1 H1].
    destruct (H23 n _ H1) as [more2 H2].
    exists (more1 ++ more2). by rewrite app_assoc.
Qed.

Lemma same_self_grows s s' : self s' = self s -> log_grows s s'.
Proof. intros Hself n h Hh. exists []. by rewrite app_nil_r, Hself. Qed.

Lemma same_log_grows s s' : same_log s s' -> log_grows s s'.
Proof. intros [Hself _]. by apply same_self_grows. Qed.

Lemma keeps_weaken {A} (R R' : relation State) (m : M A) :
  (forall s s', R s s' -> R' s s') -> keeps R m -> keeps R' m.
Proof. intros HR Hm s. specialize (Hm s). destruct (m s); auto. Qed.

Lemma healthy_same_env s s' : same_env s s' -> healthy s -> healthy s'.
Proof. intros (_&Hf&_) H k. rewrite Hf. apply H. Qed.

Create HintDb keeps discriminated.

Ltac keeps_step :=
  lazymatch goal with
  | |- keeps _ (bind _ _) => apply keeps_bind; [apply _| |intros ?]
  | |- keeps _ (try_except _ _) => apply keeps_try_except; [apply _| |intros ?]
  | |- keeps _ (ret _) => apply keeps_ret; apply _
  | |- keeps _ (raise _) => apply keeps_raise; apply _
  | |- keeps _ (gets _) => apply keeps_gets; apply _
  | |- keeps _ (modify _) => apply keeps_modify; intros ?
  | |- keeps _ (match ?x with _ => _ end) => destruct x
  | |- keeps _ (let _ := _ in _) => cbv zeta
  end.

Ltac keeps_auto := repeat first [solve [auto with keeps] | keeps_step].

Lemma backend_call_same_env c : keeps same_env (backend_call c).
Proof. intros s. unfold backend_call. by destruct (fault_at _ _). Qed.

Lemma backend_call_same_log c : keeps same_log (backend_call c).
Proof. intros s. unfold backend_call. by destruct (fault_at _ _). Qed.

Lemma datetime_now_same_env : keeps same_env datetime_now.
Proof. by intros s. Qed.

Lemma datetime_now_same_log : keeps same_log datetime_now.
Proof. by intros s. Qed.

#[local] Hint Resolve backend_call_same_env backend_call_same_log
  datetime_now_same_env datetime_now_same_log : keeps.

Lemma time_sleep_same_env n : keeps same_env (time_sleep n).
Proof. by intros s. Qed.

Lemma time_sleep_same_log n : keeps same_log (time_sleep n).
Proof. by intros s. Qed.

Lemma documents_list_same_env p : keeps same_env (documents_list p).
Proof. unfold documents_list. keeps_auto. Qed.

Lemma documents_list_same_log p : keeps same_log (documents_list p).
Proof. unfold documents_list. keeps_auto. Qed.

Lemma documents_delete_same_env n f : keeps same_env (documents_delete n f).
Proof. unfold documents_delete. keeps_auto; done. Qed.

Lemma documents_delete_same_log n f : keeps same_log (documents_delete n f).
Proof. unfold documents_delete. keeps_auto; done. Qed.

Lemma upload_same_env f p c :
  keeps same_env (upload_to_file_search_store f p c).
Proof. unfold upload_to_file_search_store. keeps_auto; done. Qed.

Lemma upload_same_log f p c :
  keeps same_log (upload_to_file_search_store f p c).
Proof. unfold upload_to_file_search_store. keeps_auto; done. Qed.

Lemma operations_get_same_env op : keeps same_env (operations_get op).
Proof. unfold operations_get. keeps_auto. Qed.

Lemma operations_get_same_log op : keeps same_log (operations_get op).
Proof. unfold operations_get. keeps_auto. Qed.

#[local] Hint Resolve time_sleep_same_env time_sleep_same_log
  documents_list_same_env documents_list_same_log
  documents_delete_same_env documents_delete_same_log
  upload_same_env upload_same_log
  operations_get_same_env operations_get_same_log : keeps.

Lemma _wait_for_operation_same_env fuel op :
  keeps same_env (_wait_for_operation fuel op).
Proof.
  revert op. induction fuel as [|fuel IH]; intros op; simpl;
    destruct (op_done op); keeps_auto; by intros s.
Qed.

Lemma _wait_for_operation_same_log fuel op :
  keeps same_log (_wait_for_operation fuel op).
Proof.
  revert op. induction fuel as [|fuel IH]; intros op; simpl;
    destruct (op_done op); keeps_auto; by intros s.
Qed.

Lemma _find_document_same_env n : keeps same_env (_find_document n).
Proof. unfold _find_document. keeps_auto. Qed.

Lemma _find_document_same_log n : keeps same_log (_find_document n).
Proof. unfold _find_document. keeps_auto. Qed.

Lemma _save_version_log_same_env : keeps same_env _save_version_log.
Proof. unfold _save_version_log. keeps_auto; done. Qed.

Lemma _save_version_log_grows : keeps log_grows _save_version_log.
Proof. unfold _save_version_log. keeps_auto. by apply same_self_grows. Qed.

#[local] Hint Resolve _wait_for_operation_same_env _wait_for_operation_same_log
  _find_document_same_env _find_document_same_log
  _save_version_log_same_env _save_version_log_grows : keeps.

Lemma add_same_env fuel file_path display_name metadata chunking_config :
  keeps same_env (add fuel file_path display_name metadata chunking_config).
Proof. unfold add. keeps_auto; done. Qed.

Lemma remove_same_env display_name : keeps same_env (remove display_name).
Proof. unfold remove. keeps_auto; done. Qed.

Lemma replace_same_env fuel display_name new_file_path version metadata :
  keeps same_env (replace fuel display_name new_file_path version metadata).
Proof. unfold replace. keeps_auto; done. Qed.

Lemma clear_all_from_same_env pager count :
  keeps same_env (clear_all_from pager count).
Proof. revert count. induction pager; intros count; simpl; keeps_auto. Qed.

Lemma clear_all_from_same_log pager count :
  keeps same_log (clear_all_from pager count).
Proof. revert count. induction pager; intros count; simpl; keeps_auto. Qed.

#[local] Hint Resolve add_same_env remove_same_env replace_same_env
  clear_all_from_same_env clear_all_from_same_log : keeps.

Lemma clear_all_same_env : keeps same_env clear_all.
Proof. unfold clear_all. keeps_auto. Qed.

Lemma clear_all_same_log : keeps same_log clear_all.
Proof. unfold clear_all. keeps_auto. Qed.

Lemma add_batch_from_same_env fuel files results :
  keeps same_env (add_batch_from fuel files results).
Proof. revert results. induction files; intros results; simpl; keeps_auto. Qed.

(** ** Calls on the backend, one at a time *)

Lemma next_call_recorded c s :
  next_call (set_world (record_call c) s) = S (next_call s).
Proof. unfold next_call. simpl. rewrite length_app. simpl. lia. Qed.

Lemma backend_call_answered c s :
  fault_at (world s) (next_call s) = None ->
  backend_call c s = Ret tt (set_world (record_call c) s).
Proof. unfold backend_call, next_call. by intros ->. Qed.

Lemma backend_call_failed c s e :
  fault_at (world s) (next_call s) = Some e ->
  backend_call c s = Raise e (set_world (record_call c) s).
Proof. unfold backend_call, next_call. by intros ->. Qed.

Lemma _find_document_answered display_name s :
  fault_at (world s) (next_call s) = None ->
  _find_document display_name s =
    Ret (_find_in (documents (world s)) display_name)
        (set_world (record_call (documents_list_call (store_name (self s)))) s).
Proof.
  intros H. unfold _find_document, documents_list, bind, gets. simpl.
  by rewrite backend_call_answered.
Qed.

Lemma _find_document_failed display_name s e :
  fault_at (world s) (next_call s) = Some e ->
  _find_document display_name s =
    Raise e (set_world (record_call (documents_list_call (store_name (self s)))) s).
Proof.
  intros H. unfold _find_document, documents_list, bind, gets. simpl.
  by rewrite (backend_call_failed _ _ e).
Qed.

(** ** The polling loop *)

Lemma handle_at_next op s k :
  handle_at (world (poll_state op s)) (next_handle (world s) op) k =
  handle_at (world s) op (S k).
Proof.
  destruct k as [|k]; simpl.
  - unfold next_handle. by rewrite Nat.add_1_r.
  - by replace (S (op_polls op + S k)) with (op_polls op + S (S k)) by lia.
Qed.

Lemma polled_next op s k :
  polled (world (poll_state op s)) (next_handle (world s) op) k =
  polled (world s) op (S k).
Proof. unfold polled. by rewrite handle_at_next. Qed.

Lemma polls_state_0 id s : polls_state 0 id s = s.
Proof.
  destruct s as [m w], w. unfold polls_state, set_world. simpl.
  by rewrite app_nil_r, Nat.add_0_r.
Qed.

Lemma polls_state_next op s k :
  polls_state k (op_id op) (poll_state op s) = polls_state (S k) (op_id op) s.
Proof.
  unfold polls_state, poll_state, set_world. simpl.
  rewrite <- app_assoc. simpl.
  by replace (slept (world s) + 2 + (k + (k + 0)))
    with (slept (world s) + S (k + S (k + 0))) by lia.
Qed.

Lemma none_done_or_first w op k :
  (forall j, j < k -> polled w op j = false) \/
  exists k0, k0 < k /\ polled w op k0 = true /\
    forall j, j < k0 -> polled w op j = false.
Proof.
  induction k as [|k [IH|(k0&?&?&?)]].
  - left. lia.
  - destruct (polled w op k) eqn:Hk.
    + right. exists k. auto.
    + left. intros j Hj. destruct (decide (j = k)) as [->|]; [done|].
      apply IH. lia.
  - right. exists k0. auto.
Qed.

Lemma first_done w op k :
  polled w op k = true ->
  exists k0, k0 <= k /\ polled w op k0 = true /\
    forall j, j < k0 -> polled w op j = false.
Proof.
  intros Hk. destruct (none_done_or_first w op k) as [?|(k0&?&?&?)].
  - exists k. auto.
  - exists k0. split; [lia|done].
Qed.

Lemma wait_done fuel op s :
  op_done op = true -> _wait_for_operation fuel op s = Ret op s.
Proof. intros H. destruct fuel; simpl; by rewrite H. Qed.

Lemma wait_out_of_fuel op s :
  op_done op = false -> _wait_for_operation 0 op s = Timeout.
Proof. intros H. simpl. by rewrite H. Qed.

Lemma wait_poll fuel op s :
  op_done op = false ->
  fault_at (world s) (next_call s) = None ->
  _wait_for_operation (S fuel) op s =
  _wait_for_operation fuel (next_handle (world s) op) (poll_state op s).
Proof.
  intros Hdone Hfault. simpl. rewrite Hdone.
  unfold bind, time_sleep, modify, operations_get, bind, backend_call, gets, ret.
  simpl. unfold next_call in Hfault. by rewrite Hfault.
Qed.

Lemma wait_poll_failed fuel op s e :
  op_done op = false ->
  fault_at (world s) (next_call s) = Some e ->
  _wait_for_operation (S fuel) op s = Raise e (poll_state op s).
Proof.
  intros Hdone Hfault. simpl. rewrite Hdone.
  unfold bind, time_sleep, modify, operations_get, bind, backend_call, gets, ret.
  simpl. unfold next_call in Hfault. by rewrite Hfault.
Qed.

(** A wait that returns has looked at [k] handles that were not done
    and then at one that was, which it returns; [k] is within its fuel,
    and the [k] rounds are all that happened. *)
Lemma wait_Ret_inv fuel op s r s' :
  _wait_for_operation fuel op s = Ret r s' ->
  exists k,
    k <= fuel /\
    (forall j, j < k -> polled (world s) op j = false) /\
    polled (world s) op k = true /\
    r = handle_at (world s) op k /\
    s' = polls_state k (op_id op) s.
Proof.
  revert op s. induction fuel as [|fuel IH]; intros op s;
    destruct (op_done op) eqn:Hdone.
  - rewrite wait_done by done. intros [= <- <-].
    exists 0. rewrite polls_state_0. split_and!; [lia|intros; lia|done..].
  - by rewrite wait_out_of_fuel.
  - rewrite wait_done by done. intros [= <- <-].
    exists 0. rewrite polls_state_0. split_and!; [lia|intros; lia|done..].
  - destruct (fault_at (world s) (next_call s)) as [e|] eqn:Hfault.
    { by rewrite (wait_poll_failed _ _ _ e). }
    rewrite wait_poll by done. intros Hret.
    destruct (IH _ _ Hret) as (k & Hk & Hlt & Hp & Hr & Hs').
    exists (S k). split; [lia|]. split; [|split; [|split]].
    + intros [|j] Hj; [done|]. rewrite <- polled_next. apply Hlt. lia.
    + by rewrite <- polled_next.
    + by rewrite <- handle_at_next.
    + by rewrite <- polls_state_next.
Qed.

(** With a backend that answers, fuel up to the first handle that is
    done is enough for the wait to return. *)
Lemma wait_returns fuel op s k :
  healthy s ->
  (forall j, j < k -> polled (world s) op j = false) ->
  polled (world s) op k = true -> k <= fuel ->
  _wait_for_operation fuel op s =
    Ret (handle_at (world s) op k) (polls_state k (op_id op) s).
Proof.
  revert fuel op s. induction k as [|k IH]; intros fuel op s Hs Hlt Hp Hk.
  - rewrite wait_done, polls_state_0 by done. done.
  - destruct fuel as [|fuel]; [lia|].
    rewrite wait_poll; [|apply (Hlt 0); lia|apply Hs].
    rewrite <- handle_at_next, <- polls_state_next.
    apply (IH fuel (next_handle (world s) op) (poll_state op s));
      [done| |by rewrite polled_next|lia].
    intros j Hj. rewrite polled_next. apply Hlt. lia.
Qed.

(** With a backend that answers and an operation that is never done,
    no fuel is enough. *)
Lemma wait_never fuel op s :
  healthy s ->
  (forall k, polled (world s) op k = false) ->
  _wait_for_operation fuel op s = Timeout.
Proof.
  revert op s. induction fuel as [|fuel IH]; intros op s Hs Hp.
  - apply wait_out_of_fuel, (Hp 0).
  - rewrite wait_poll; [|apply (Hp 0)|apply Hs].
    apply IH; [done|]. intros k. rewrite polled_next. apply Hp.
Qed.

(** Fuel up to a handle that is done is enough for the wait to end, by
    a result or by an exception. *)
Lemma wait_ends fuel op s k :
  polled (world s) op k = true -> k <= fuel ->
  _wait_for_operation fuel op s <> Timeout.
Proof.
  revert fuel op s. induction k as [|k IH]; intros fuel op s Hp Hk.
  - by rewrite wait_done.
  - destruct (op_done op) eqn:Hdone.
    { by rewrite wait_done. }
    destruct fuel as [|fuel]; [lia|].
    destruct (fault_at (world s) (next_call s)) as [e|] eqn:Hfault.
    { by rewrite (wait_poll_failed _ _ _ e). }
    rewrite wait_poll by done.
    apply IH; [|lia]. by rewrite polled_next.
Qed.

(** ** Uploads *)

Lemma upload_answered file store config s size :
  fault_at (world s) (next_call s) = None ->
  local_files (world s) !! file = Some size ->
  upload_to_file_search_store file store config s =
    Ret (first_handle (world s)) (upload_state file store config size s).
Proof.
  intros Hfault Hfile.
  unfold upload_to_file_search_store, bind, gets.
  rewrite backend_call_answered by done. simpl. by rewrite Hfile.
Qed.

Lemma upload_missing file store config s :
  local_files (world s) !! file = None ->
  upload_to_file_search_store file store config s =
    Raise (default (file_not_found file) (fault_at (world s) (next_call s)))
          (set_world (record_call (upload_call file store config)) s).
Proof.
  intros Hfile. unfold upload_to_file_search_store, bind, gets.
  destruct (fault_at (world s) (next_call s)) as [e|] eqn:Hfault.
  - by rewrite (backend_call_failed _ _ e).
  - rewrite backend_call_answered by done. simpl. by rewrite Hfile.
Qed.

Lemma upload_Ret_inv file store config s op s' :
  upload_to_file_search_store file store config s = Ret op s' ->
  exists size,
    fault_at (world s) (next_call s) = None /\
    local_files (world s) !! file = Some size /\
    op = first_handle (world s) /\
    s' = upload_state file store config size s.
Proof.
  destruct (local_files (world s) !! file) as [size|] eqn:Hfile.
  - destruct (fault_at (world s) (next_call s)) as [e|] eqn:Hfault.
    + unfold upload_to_file_search_store, bind.
      by rewrite (backend_call_failed _ _ e).
    + rewrite (upload_answered _ _ _ _ size) by done.
      intros [= <- <-]. eauto.
  - by rewrite upload_missing.
Qed.

Lemma upload_ends file store config s :
  upload_to_file_search_store file store config s <> Timeout.
Proof.
  destruct (local_files (world s) !! file) as [size|] eqn:Hfile.
  - destruct (fault_at (world s) (next_call s)) as [e|] eqn:Hfault.
    + unfold upload_to_file_search_store, bind.
      by rewrite (backend_call_failed _ _ e).
    + by rewrite (upload_answered _ _ _ _ size).
  - by rewrite upload_missing.
Qed.

Lemma polled_first_handle file store config size s k :
  polled (world (upload_state file store config size s))
         (first_handle (world s)) k =
  op_states (world s) (next_operation (world s)) k.
Proof. by destruct k. Qed.

(** ** [add], step by step *)

(** What is known when [add] has returned. *)
Lemma add_Ret_inv fuel file_path display_name metadata chunking_config s r s' :
  add fuel file_path display_name metadata chunking_config s = Ret r s' ->
  let name := str_or display_name (basename file_path) in
  let config := add_config file_path display_name metadata chunking_config in
  let w := world s in
  exists size k,
    fault_at w (next_call s) = None /\
    local_files w !! file_path = Some size /\
    k <= fuel /\
    (forall j, j < k -> op_states w (next_operation w) j = false) /\
    op_states w (next_operation w) k = true /\
    r = {| res_display_name := name; res_status := "added" |} /\
    version_log (self s') =
      <[name := [added_entry file_path (wall_clock w (clock_reads w))]]>
        (version_log (self s)) /\
    disk (world s') =
      <[version_log_path (self s) := json_dump (version_log (self s'))]>
        (disk w) /\
    documents (world s') = documents w ++ [uploaded config size w] /\
    calls (world s') =
      calls w ++ upload_call file_path (store_name (self s)) config ::
                 replicate k (operations_get_call (next_operation w)).
Proof.
  intros Hadd name config w. unfold add in Hadd. cbv zeta in Hadd.
  fold name config in Hadd. unfold bind, gets in Hadd.
  destruct (upload_to_file_search_store _ _ _ _) as [op s1| |] eqn:Hup;
    [|done..].
  apply upload_Ret_inv in Hup as (size & Hfault & Hfile & -> & ->).
  destruct (_wait_for_operation _ _ _) as [op s2| |] eqn:Hwait; [|done..].
  apply wait_Ret_inv in Hwait as (k & Hk & Hlt & Hp & -> & ->).
  setoid_rewrite polled_first_handle in Hlt.
  rewrite polled_first_handle in Hp.
  simpl in Hadd. injection Hadd as <- <-.
  exists size, k. split_and!; try done.
  simpl. by rewrite <- app_assoc.
Qed.

(** When [add] returns: the backend answers, the file is there, and the
    fuel reaches the first handle that is done. *)
Lemma add_returns fuel file_path display_name metadata chunking_config s size k :
  healthy s ->
  local_files (world s) !! file_path = Some size ->
  (forall j, j < k ->
     op_states (world s) (next_operation (world s)) j = false) ->
  op_states (world s) (next_operation (world s)) k = true ->
  k <= fuel ->
  exists r s',
    add fuel file_path display_name metadata chunking_config s = Ret r s'.
Proof.
  intros Hs Hfile Hlt Hp Hk. unfold add. cbv zeta. unfold bind, gets.
  rewrite (upload_answered _ _ _ _ size) by done.
  rewrite (wait_returns _ _ _ k); [simpl; eauto|done| | |done].
  - intros j Hj. rewrite polled_first_handle. by apply Hlt.
  - by rewrite polled_first_handle.
Qed.

(** A missing file: the upload is called and fails, and that is all. *)
Lemma add_missing fuel file_path display_name metadata chunking_config s :
  local_files (world s) !! file_path = None ->
  add fuel file_path display_name metadata chunking_config s =
    Raise (default (file_not_found file_path)
                   (fault_at (world s) (next_call s)))
          (set_world (record_call
             (upload_call file_path (store_name (self s))
                (add_config file_path display_name metadata chunking_config)))
             s).
Proof.
  intros Hfile. unfold add. cbv zeta. unfold bind, gets.
  by rewrite upload_missing.
Qed.

(** ** Finding and deleting documents *)

Lemma existsb_doc_name docs name :
  name ∈ doc_name <$> docs ->
  existsb (fun d => Nat.eqb (doc_name d) name) docs = true.
Proof.
  induction docs as [|d docs IH]; simpl.
  - by intros ?%elem_of_nil.
  - intros [->|?]%elem_of_cons.
    + by rewrite Nat.eqb_refl.
    + rewrite IH by done. apply orb_true_r.
Qed.

Lemma documents_delete_answered name force s :
  fault_at (world s) (next_call s) = None ->
  name ∈ doc_name <$> documents (world s) ->
  documents_delete name force s = Ret tt (delete_state name force s).
Proof.
  intros Hfault Hin. unfold documents_delete, bind, gets.
  rewrite backend_call_answered by done. simpl.
  by rewrite existsb_doc_name.
Qed.

Lemma documents_delete_failed name force s e :
  fault_at (world s) (next_call s) = Some e ->
  documents_delete name force s =
    Raise e (set_world (record_call (documents_delete_call name force)) s).
Proof.
  intros Hfault. unfold documents_delete, bind.
  by rewrite (backend_call_failed _ _ e).
Qed.

(** The linear scan stops at the first document of that display name. *)
Lemma _find_in_Some docs display_name doc :
  _find_in docs display_name = Some doc ->
  exists before after,
    docs = before ++ doc :: after /\
    Forall (fun d => doc_display_name d <> display_name) before /\
    doc_display_name doc = display_name.
Proof.
  induction docs as [|d docs IH]; simpl; [done|].
  destruct (String.eqb_spec (doc_display_name d) display_name) as [Heq|Hne].
  - intros [= ->]. by exists [], docs.
  - intros (before & after & -> & ? & ?)%IH.
    exists (d :: before), after. split_and!; [done| |done].
    by constructor.
Qed.

Lemma _find_in_None docs display_name :
  _find_in docs display_name = None <->
  Forall (fun d => doc_display_name d <> display_name) docs.
Proof.
  induction docs as [|d docs IH]; simpl.
  - split; [constructor|done].
  - destruct (String.eqb_spec (doc_display_name d) display_name) as [Heq|Hne].
    + split; [done|]. by intros [? _]%Forall_cons.
    + rewrite IH. split; [by constructor|]. by intros [_ ?]%Forall_cons.
Qed.

Lemma filter_all {A} (P : A -> Prop) `{!forall x, Decision (P x)} (l : list A) :
  Forall P l -> filter P l = l.
Proof.
  induction 1 as [|x l Hx _ IH]; [done|].
  by rewrite filter_cons_True, IH.
Qed.

(** With identifiers that are unique, deleting by identifier takes out
    that one document and leaves the others in their order. *)
Lemma filter_out_unique before doc after :
  NoDup (doc_name <$> before ++ doc :: after) ->
  filter (fun d => doc_name d <> doc_name doc) (before ++ doc :: after) =
  before ++ after.
Proof.
  rewrite fmap_app, fmap_cons.
  intros (_ & Hbefore & [Hafter _]%NoDup_cons)%NoDup_app.
  rewrite filter_app, filter_cons_False by (by intros ?).
  f_equal; apply filter_all, Forall_forall; intros d Hd Heq.
  - apply (Hbefore (doc_name d)); [by apply list_elem_of_fmap_2|].
    rewrite Heq. by left.
  - apply Hafter. rewrite <- Heq. by apply list_elem_of_fmap_2.
Qed.

(** ** [remove] *)

(** C2. [remove(display_name)], the listing being answered.
    - No document of that display name: it returns [False]; the only
      call made is the listing, no delete; the documents, the object
      (with its version log) and the log file are as before.
    - Otherwise, with [doc] the first match in listing order, the delete
      being answered and the backend identifiers unique: it returns
      [True]; the delete is called on [doc] and the listing afterwards
      is the listing before without that one document; and a "removed"
      entry is appended to the history of the name, and the file
      rewritten, exactly when the name is a key of the version log;
      when it is not, the object and the file are as before. *)
Theorem remove_spec (display_name : string) (s : State) :
  fault_at (world s) (next_call s) = None ->
  (_find_in (documents (world s)) display_name = None ->
   exists s',
     remove display_name s = Ret false s' /\
     self s' = self s /\
     disk (world s') = disk (world s) /\
     documents (world s') = documents (world s) /\
     calls (world s') =
       calls (world s) ++ [documents_list_call (store_name (self s))]) /\
  (forall doc,
   _find_in (documents (world s)) display_name = Some doc ->
   fault_at (world s) (S (next_call s)) = None ->
   NoDup (doc_name <$> documents (world s)) ->
   exists s' before after,
     remove display_name s = Ret true s' /\
     documents (world s) = before ++ doc :: after /\
     Forall (fun d => doc_display_name d <> display_name) before /\
     doc_display_name doc = display_name /\
     documents (world s') = before ++ after /\
     calls (world s') =
       calls (world s) ++ [documents_list_call (store_name (self s));
                           documents_delete_call (doc_name doc) true] /\
     match version_log (self s) !! display_name with
     | Some history =>
         version_log (self s') =
           <[display_name := history ++
               [removed_entry (wall_clock (world s) (clock_reads (world s)))]]>
             (version_log (self s)) /\
         disk (world s') =
           <[version_log_path (self s) := json_dump (version_log (self s'))]>
             (disk (world s))
     | None => self s' = self s /\ disk (world s') = disk (world s)
     end).
Proof.
  intros Hlist. split.
  - intros Hfind. unfold remove, bind.
    rewrite _find_document_answered, Hfind by done.
    eexists. split; [reflexivity|]. by destruct s.
  - intros doc Hfind Hdelete Hids.
    destruct (_find_in_Some _ _ _ Hfind) as (before & after & Hdocs & Hbefore & Hdoc).
    unfold remove, bind.
    rewrite _find_document_answered, Hfind by done.
    rewrite documents_delete_answered; cycle 1.
    { by rewrite next_call_recorded. }
    { simpl. rewrite Hdocs, fmap_app, fmap_cons. set_solver. }
    unfold gets. simpl.
    assert (filter (fun d => doc_name d <> doc_name doc) (documents (world s))
            = before ++ after) as Hfilter.
    { rewrite Hdocs. apply filter_out_unique. by rewrite <- Hdocs. }
    destruct (version_log (self s) !! display_name) as [history|];
      simpl; eexists _, before, after;
      (split; [reflexivity|]); simpl; rewrite <- app_assoc;
      split_and!; done.
Qed.

Lemma remove_spec_witness :
  (exists s',
     remove "nonexistent.txt" (example_state no_faults) = Ret false s' /\
     self s' = self (example_state no_faults)) /\
  (exists s' before after,
     remove "FAQ Document" (example_state no_faults) = Ret true s' /\
     documents (world (example_state no_faults)) =
       before ++ example_document 1 "FAQ Document" :: after /\
     documents (world s') = before ++ after /\
     version_log (self s') !! "FAQ Document" =
       Some [ added_entry "test_documents/faq.txt" (example_clock 59);
              removed_entry (example_clock 0) ]) /\
  (exists s',
     remove "api_reference.txt" (example_state no_faults) = Ret true s' /\
     self s' = self (example_state no_faults)).
Proof.
  destruct (remove_spec "nonexistent.txt" (example_state no_faults) eq_refl)
    as [Habsent _].
  destruct (remove_spec "FAQ Document" (example_state no_faults) eq_refl)
    as [_ Hlogged].
  destruct (remove_spec "api_reference.txt" (example_state no_faults) eq_refl)
    as [_ Hunlogged].
  split_and!.
  - destruct (Habsent eq_refl) as (s' & ? & ? & _). by exists s'.
  - destruct (Hlogged (example_document 1 "FAQ Document") eq_refl eq_refl)
      as (s' & before & after & Hrun & Hdocs & _ & _ & Hafter & _ & Hlog).
    { apply (bool_decide_unpack _). by vm_compute. }
    exists s', before, after. split_and!; try done.

    change (example_log !! "FAQ Document") with (Some [ added_entry "test_documents/faq.txt" (example_clock 59)]) in Hlog.
    destruct Hlog as [-> _]. apply lookup_insert_eq.
  - destruct (Hunlogged (example_document 2 "api_reference.txt") eq_refl eq_refl)
      as (s' & before & after & Hrun & _ & _ & _ & _ & _ & Hlog).
    { apply (bool_decide_unpack _). by vm_compute. }
    exists s'. split; [done|]. apply Hlog.
Defined.

(** C10. [remove(display_name)] when the backend has a document of that
    name and the delete call on it raises: the exception comes out of
    [remove] as it is; the only calls made are the listing and the
    failed delete; the object, with its version log, is as before, the
    log file is not written, and the clock is not read (no entry was
    built). *)
Theorem remove_delete_failure (display_name : string) (s : State)
    (doc : Document) (e : Exn) :
  fault_at (world s) (next_call s) = None ->
  _find_in (documents (world s)) display_name = Some doc ->
  fault_at (world s) (S (next_call s)) = Some e ->
  exists s',
    remove display_name s = Raise e s' /\
    self s' = self s /\
    disk (world s') = disk (world s) /\
    clock_reads (world s') = clock_reads (world s) /\
    documents (world s') = documents (world s) /\
    calls (world s') =
      calls (world s) ++ [documents_list_call (store_name (self s));
                          documents_delete_call (doc_name doc) true].
Proof.
  intros Hlist Hfind Hdelete. unfold remove, bind.
  rewrite _find_document_answered, Hfind by done.
  rewrite (documents_delete_failed _ _ _ e)
    by (by rewrite next_call_recorded).
  eexists. split; [reflexivity|]. simpl. rewrite <- app_assoc.
  by destruct s.
Qed.

Lemma remove_delete_failure_witness :
  exists s',
    remove "Product Manual" (example_state (fault_on 1)) =
      Raise unavailable s' /\
    self s' = self (example_state (fault_on 1)) /\
    disk (world s') = disk (world (example_state (fault_on 1))) /\
    clock_reads (world s') = 0 /\
    documents (world s') = documents (world (example_state (fault_on 1))) /\
    calls (world s') =
      [documents_list_call "fileSearchStores/test-repo-manager";
       documents_delete_call 0 true].
Proof.
  apply (remove_delete_failure "Product Manual" (example_state (fault_on 1))
           (example_document 0 "Product Manual") unavailable);
    reflexivity.
Defined.

(** ** [clear_all] *)

Lemma clear_all_from_spec pager count s :
  healthy s ->
  NoDup (doc_name <$> pager) ->
  documents (world s) = pager ->
  exists s',
    clear_all_from pager count s = Ret (count + length pager) s' /\
    documents (world s') = [] /\
    same_log s s' /\
    same_env s s' /\
    calls (world s') =
      calls (world s) ++
      ((fun d => documents_delete_call (doc_name d) true) <$> pager).
Proof.
  revert count s. induction pager as [|doc rest IH]; intros count s Hs Hids Hdocs.
  - exists s. simpl. rewrite Nat.add_0_r, app_nil_r. by split_and!.
  - simpl. unfold bind.
    rewrite documents_delete_answered; [|apply Hs|]; cycle 1.
    { rewrite Hdocs, fmap_cons. by left. }
    destruct (IH (count + 1) (delete_state (doc_name doc) true s))
      as (s' & -> & Hempty & [Hself Hdisk] & Henv & Hcalls).
    + done.
    + by apply NoDup_cons in Hids as [_ ?].
    + simpl. rewrite Hdocs. by apply (filter_out_unique []).
    + exists s'. split_and!.
      * f_equal. lia.
      * done.
      * done.
      * done.
      * rewrite Hcalls. simpl. by rewrite <- app_assoc.
Qed.

(** C4. Whatever the version log holds: with a backend that answers and
    identifiers that are unique, [clear_all()] on a store of [K]
    documents calls delete on each of them in listing order, returns
    [K], and leaves no document; the object with its version log and
    the log file are as before; and [list()] called next returns the
    empty list. *)
Theorem clear_all_spec (s : State) :
  healthy s ->
  NoDup (doc_name <$> documents (world s)) ->
  exists s',
    clear_all s = Ret (length (documents (world s))) s' /\
    documents (world s') = [] /\
    self s' = self s /\
    disk (world s') = disk (world s) /\
    calls (world s') =
      calls (world s) ++ documents_list_call (store_name (self s)) ::
        ((fun d => documents_delete_call (doc_name d) true)
           <$> documents (world s)) /\
    exists s'', list_ s' = Ret [] s''.
Proof.
  intros Hs Hids. unfold clear_all, documents_list, bind, gets.
  rewrite backend_call_answered by apply Hs. simpl.
  destruct (clear_all_from_spec (documents (world s)) 0
              (set_world (record_call
                 (documents_list_call (store_name (self s)))) s))
    as (s' & -> & Hempty & [Hself Hdisk] & Henv & Hcalls); [done..|].
  exists s'. split_and!; try done.
  - simpl in Hcalls. by rewrite Hcalls, <- app_assoc.
  - unfold list_, documents_list, bind, gets.
    rewrite backend_call_answered.
    + simpl. rewrite Hempty. eauto.
    + by apply (healthy_same_env _ _ Henv).
Qed.

Lemma clear_all_spec_witness :
  exists s',
    clear_all (example_state no_faults) = Ret 4 s' /\
    documents (world s') = [] /\
    self s' = self (example_state no_faults) /\
    disk (world s') = disk (world (example_state no_faults)) /\
    calls (world s') =
      [ documents_list_call "fileSearchStores/test-repo-manager";
        documents_delete_call 0 true; documents_delete_call 1 true;
        documents_delete_call 2 true; documents_delete_call 3 true ] /\
    exists s'', list_ s' = Ret [] s''.
Proof.
  apply (clear_all_spec (example_state no_faults)).
  - intros k. reflexivity.
  - apply (bool_decide_unpack _). by vm_compute.
Defined.

(** ** [replace] *)

Lemma version_metadata_eq version (metadata : option (list Metadata)) :
  [version_entry version] ++
    (if list_truthy metadata then default [] metadata else []) =
  version_entry version :: default [] metadata.
Proof. by destruct metadata as [[|]|]. Qed.

(** C8. [replace(display_name, new_file_path, ...)] when the backend has
    a document of that name and the delete call on it raises: the
    exception comes out of [replace] as it is; the only calls made are
    the listing and the failed delete, so no upload; no document is
    removed or stored; the object, with its version log, is as before
    and the log file is not written. *)
Theorem replace_delete_failure (fuel : nat) (display_name new_file_path : string)
    (version : option string) (metadata : option (list Metadata))
    (s : State) (doc : Document) (e : Exn) :
  fault_at (world s) (next_call s) = None ->
  _find_in (documents (world s)) display_name = Some doc ->
  fault_at (world s) (S (next_call s)) = Some e ->
  exists s',
    replace fuel display_name new_file_path version metadata s = Raise e s' /\
    self s' = self s /\
    disk (world s') = disk (world s) /\
    documents (world s') = documents (world s) /\
    calls (world s') =
      calls (world s) ++ [documents_list_call (store_name (self s));
                          documents_delete_call (doc_name doc) true].
Proof.
  intros Hlist Hfind Hdelete. unfold replace, bind.
  destruct version as [[|c r]|]; simpl;
    rewrite _find_document_answered by done; simpl; rewrite Hfind;
    rewrite (documents_delete_failed _ _ _ e)
      by (by rewrite next_call_recorded);
    (eexists; split; [reflexivity|]); simpl; rewrite <- app_assoc;
    by destruct s.
Qed.

Lemma replace_delete_failure_witness :
  exists s',
    replace 10 "Product Manual" "test_documents/sample_manual.txt"
      (Some "2.0") None (example_state (fault_on 1)) = Raise unavailable s' /\
    self s' = self (example_state (fault_on 1)) /\
    disk (world s') = disk (world (example_state (fault_on 1))) /\
    documents (world s') = documents (world (example_state (fault_on 1))) /\
    calls (world s') =
      [documents_list_call "fileSearchStores/test-repo-manager";
       documents_delete_call 0 true].
Proof.
  apply (replace_delete_failure 10 "Product Manual"
           "test_documents/sample_manual.txt" (Some "2.0") None
           (example_state (fault_on 1))
           (example_document 0 "Product Manual") unavailable);
    reflexivity.
Defined.

Lemma list_truthy_default {A} (l : option (list A)) :
  (if list_truthy l then default [] l else []) = default [] l.
Proof. by destruct l as [[|]|]. Qed.

Lemma _find_in_elem docs display_name doc :
  _find_in docs display_name = Some doc ->
  doc_name doc ∈ doc_name <$> docs.
Proof.
  intros Hfind. apply _find_in_Some in Hfind as (before & after & -> & _).
  rewrite fmap_app, fmap_cons. set_solver.
Qed.

Lemma replace_Ret_inv fuel display_name new_file_path version metadata s r s' :
  replace fuel display_name new_file_path version metadata s = Ret r s' ->
  let w := world s in
  let v := effective_version version (wall_clock w (clock_reads w)) in
  let existing := _find_in (documents w) display_name in
  let config := replace_config display_name v metadata in
  exists size k,
    fault_at w (next_call s) = None /\
    local_files w !! new_file_path = Some size /\
    k <= fuel /\
    (forall j, j < k -> op_states w (next_operation w) j = false) /\
    op_states w (next_operation w) k = true /\
    r = {| rep_display_name := display_name; rep_version := v |} /\
    calls (world s') =
      calls w ++ documents_list_call (store_name (self s)) ::
        match existing with
        | Some doc => [documents_delete_call (doc_name doc) true]
        | None => []
        end ++
        upload_call new_file_path (store_name (self s)) config ::
        replicate k (operations_get_call (next_operation w)) /\
    documents (world s') =
      match existing with
      | Some doc => filter (fun d => doc_name d <> doc_name doc) (documents w)
      | None => documents w
      end ++ [uploaded config size w] /\
    version_log (self s') =
      <[display_name :=
          default [] (version_log (self s) !! display_name) ++
          [replaced_entry existing v
             (wall_clock w (clock_reads w + reads_for_version version))]]>
        (version_log (self s)) /\
    disk (world s') =
      <[version_log_path (self s) := json_dump (version_log (self s'))]>
        (disk w).
Proof.
  intros Hrun. cbv zeta.
  unfold replace in Hrun.
  unfold bind, gets in Hrun.
  destruct (fault_at (world s) (next_call s)) as [e|] eqn:Hlist.
  { destruct version as [[|c r']|]; simpl in Hrun;
      by rewrite (_find_document_failed _ _ e) in Hrun. }
  destruct version as [[|c r']|]; simpl in Hrun;
    rewrite _find_document_answered in Hrun by done; simpl in Hrun;
    rewrite list_truthy_default in Hrun;
    (destruct (_find_in (documents (world s)) display_name) as [doc|] eqn:Hfind;
     [ destruct (fault_at (world s) (S (next_call s))) as [e|] eqn:Hdelete;
       [ by rewrite (documents_delete_failed _ _ _ e) in Hrun
           by (by rewrite next_call_recorded)
       | rewrite documents_delete_answered in Hrun
           by (by rewrite ?next_call_recorded; eauto using _find_in_elem) ]
     | simpl in Hrun ]);
    (destruct (upload_to_file_search_store _ _ _ _) as [op s1| |] eqn:Hup;
       [|done..]);
    apply upload_Ret_inv in Hup as (size & Hfault & Hfile & -> & ->);
    (destruct (_wait_for_operation _ _ _) as [op s2| |] eqn:Hwait; [|done..]);
    apply wait_Ret_inv in Hwait as (k & Hk & Hlt & Hp & -> & ->);
    setoid_rewrite polled_first_handle in Hlt;
    rewrite polled_first_handle in Hp;
    simpl in Hrun; injection Hrun as <- <-;
    exists size, k; simpl;
    rewrite <- ?app_assoc, ?Nat.add_0_r, ?Nat.add_1_r;
    split_and!; done.
Qed.

(** When [replace] returns: the backend answers, the file is there, and
    the fuel reaches the first handle that is done. *)
Lemma replace_returns fuel display_name new_file_path version metadata s size k :
  healthy s ->
  local_files (world s) !! new_file_path = Some size ->
  (forall j, j < k ->
     op_states (world s) (next_operation (world s)) j = false) ->
  op_states (world s) (next_operation (world s)) k = true ->
  k <= fuel ->
  exists r s',
    replace fuel display_name new_file_path version metadata s = Ret r s'.
Proof.
  intros Hs Hfile Hlt Hp Hk. unfold replace, bind, gets.
  destruct version as [[|c r']|]; simpl;
    rewrite _find_document_answered by apply Hs; simpl;
    (destruct (_find_in (documents (world s)) display_name) as [doc|] eqn:Hfind;
     [ rewrite documents_delete_answered
         by (first [apply Hs | eauto using _find_in_elem])
     | simpl ]);
    rewrite (upload_answered _ _ _ _ size) by (first [apply Hs | done]);
    (rewrite (wait_returns _ _ _ k);
     [ simpl; eauto
     | done
     | intros j Hj; rewrite polled_first_handle; by apply Hlt
     | by rewrite polled_first_handle
     | done ]).
Qed.

(** C3. [replace(display_name, new_file_path, version?, metadata?)].
    With [v] the version label (the caller's, or the clock's when the
    caller gives none) and [existing] what the scan of the listing finds
    before anything is deleted or uploaded:
    - the call returns when the backend answers, the file is there and
      the fuel reaches the first handle that is done;
    - when it returns, the upload was called with a [custom_metadata]
      list made of the version entry followed by the caller's entries in
      their order, and the last document of the store carries that list;
      the history of the name in the version log is what it was (empty
      when the name was no key) followed by one entry, whose version is
      [v] and whose action is "replaced" when [existing] is a document
      and "added" when it is none, whatever the log held. *)
Theorem replace_metadata_and_action (fuel : nat)
    (display_name new_file_path : string) (version : option string)
    (metadata : option (list Metadata)) (s : State) :
  let w := world s in
  let v := effective_version version (wall_clock w (clock_reads w)) in
  let existing := _find_in (documents w) display_name in
  let version_metadata := version_entry v :: default [] metadata in
  (forall size k,
     healthy s ->
     local_files w !! new_file_path = Some size ->
     (forall j, j < k -> op_states w (next_operation w) j = false) ->
     op_states w (next_operation w) k = true ->
     k <= fuel ->
     exists r s',
       replace fuel display_name new_file_path version metadata s = Ret r s') /\
  (forall r s',
     replace fuel display_name new_file_path version metadata s = Ret r s' ->
     exists size entry,
       local_files w !! new_file_path = Some size /\
       r = {| rep_display_name := display_name; rep_version := v |} /\
       upload_call new_file_path (store_name (self s))
         {| cfg_display_name := display_name;
            cfg_custom_metadata := Some version_metadata;
            cfg_chunking_config := None |} ∈ calls (world s') /\
       last (documents (world s')) =
         Some {| doc_name := next_document w;
                 doc_display_name := display_name;
                 doc_state := "STATE_ACTIVE";
                 doc_size_bytes := size;
                 doc_custom_metadata := version_metadata |} /\
       version_log (self s') !! display_name =
         Some (default [] (version_log (self s) !! display_name) ++ [entry]) /\
       entry !! "version" = Some v /\
       entry !! "action" =
         Some (if existing is Some _ then "replaced" else "added")).
Proof.
  intros w v existing version_metadata. split.
  - intros size k. apply replace_returns.
  - intros r s' Hrun.
    destruct (replace_Ret_inv _ _ _ _ _ _ _ _ Hrun)
      as (size & k & _ & Hfile & _ & _ & _ & Hr & Hcalls & Hdocs & Hlog & _).
    fold w v existing in Hfile, Hr, Hcalls, Hdocs, Hlog.
    exists size, (replaced_entry existing v
                    (wall_clock w (clock_reads w + reads_for_version version))).
    split_and!.
    + done.
    + done.
    + rewrite Hcalls. set_solver.
    + rewrite Hdocs. apply last_snoc.
    + rewrite Hlog. apply lookup_insert_eq.
    + done.
    + done.
Qed.

Lemma replace_metadata_and_action_witness :
  exists r s' entry,
    replace 10 "Product Manual" "test_documents/sample_manual.txt"
      (Some "2.0") (Some example_metadata) (example_state no_faults)
      = Ret r s' /\
    r = {| rep_display_name := "Product Manual"; rep_version := "2.0" |} /\
    last (documents (world s')) =
      Some {| doc_name := 4;
              doc_display_name := "Product Manual";
              doc_state := "STATE_ACTIVE";
              doc_size_bytes := 2048;
              doc_custom_metadata :=
                version_entry "2.0" :: example_metadata |} /\
    version_log (self s') !! "Product Manual" =
      Some ([ added_entry "test_documents/sample_manual.txt"
                (example_clock 58) ] ++ [entry]) /\
    entry !! "action" = Some "replaced".
Proof.
  destruct (replace_metadata_and_action 10 "Product Manual"
              "test_documents/sample_manual.txt" (Some "2.0")
              (Some example_metadata) (example_state no_faults))
    as [Hreturns Hret].
  destruct (Hreturns 2048 2) as (r & s' & Hrun).
  - intros k. reflexivity.
  - reflexivity.
  - intros [|[|j]] Hj; [reflexivity..|lia].
  - reflexivity.
  - lia.
  - destruct (Hret r s' Hrun)
      as (size & entry & [= <-] & Hr & _ & Hlast & Hlog & _ & Haction).
    by exists r, s', entry.
Defined.

(** ** The histories of the version log *)

Lemma log_grows_insert s s' display_name history more :
  default [] (version_log (self s) !! display_name) = history ->
  version_log (self s') =
    <[display_name := history ++ more]> (version_log (self s)) ->
  log_grows s s'.
Proof.
  intros Hhistory Hlog other h Hother. rewrite Hlog.
  destruct (decide (other = display_name)) as [->|Hne].
  - rewrite lookup_insert_eq. rewrite Hother in Hhistory. simpl in Hhistory.
    subst. eauto.
  - rewrite lookup_insert_ne by done. exists []. by rewrite app_nil_r.
Qed.

Ltac keeps_log_grows :=
  repeat first
    [ solve [auto with keeps]
    | solve [apply (keeps_weaken same_log log_grows);
             [exact same_log_grows | auto with keeps]]
    | keeps_step ].

(** [remove] only appends: however it ends, every history is a prefix
    of what it has become. *)
Lemma remove_log_grows display_name : keeps log_grows (remove display_name).
Proof.
  unfold remove.
  apply keeps_bind; [apply _|keeps_log_grows|].
  intros [doc|]; [|keeps_log_grows].
  apply keeps_bind; [apply _|keeps_log_grows|]. intros _.
  intros s. unfold bind, gets. simpl.
  destruct (version_log (self s) !! display_name) as [history|] eqn:Hhistory;
    simpl; [|reflexivity].
  apply (log_grows_insert _ _ display_name history
           [removed_entry (wall_clock (world s) (clock_reads (world s)))]);
    [by rewrite Hhistory|reflexivity].
Qed.

(** [replace] only appends, also when the action it logs is "added". *)
Lemma replace_log_grows fuel display_name new_file_path version metadata :
  keeps log_grows (replace fuel display_name new_file_path version metadata).
Proof.
  unfold replace. keeps_log_grows.
  eapply log_grows_insert; reflexivity.
Qed.

(** [clear_all] does not touch the log. *)
Lemma clear_all_log_grows : keeps log_grows clear_all.
Proof.
  apply (keeps_weaken same_log log_grows);
    [exact same_log_grows | exact clear_all_same_log].
Qed.

(** [add] starts the history of the name afresh: when it returns, the
    history is the one entry it wrote, whatever it was before. *)
Lemma add_resets_history fuel file_path display_name metadata chunking_config
    s r s' :
  add fuel file_path display_name metadata chunking_config s = Ret r s' ->
  version_log (self s') !! res_display_name r =
    Some [added_entry file_path
            (wall_clock (world s) (clock_reads (world s)))].
Proof.
  intros Hrun. apply add_Ret_inv in Hrun
    as (size & k & _ & _ & _ & _ & _ & -> & -> & _).
  apply lookup_insert_eq.
Qed.

(** C1, on the code.  The manager replaces "Product Manual", whose
    history then has two entries, "added" and "replaced"; it then adds a
    file under the same display name.  The second history is the one
    "added" entry of that call: the two entries are gone, and the log
    has not only grown. *)
Theorem add_discards_history :
  exists r1 s1 r2 s2 first_entry second_entry,
    replace 10 "Product Manual" "test_documents/sample_manual.txt"
      (Some "2.0") None (example_state no_faults) = Ret r1 s1 /\
    version_log (self s1) !! "Product Manual" =
      Some [first_entry; second_entry] /\
    first_entry !! "action" = Some "added" /\
    second_entry !! "action" = Some "replaced" /\
    add 10 "test_documents/sample_manual.txt" (Some "Product Manual")
      None None s1 = Ret r2 s2 /\
    version_log (self s2) !! "Product Manual" =
      Some [added_entry "test_documents/sample_manual.txt" (example_clock 1)] /\
    ~ log_grows s1 s2.
Proof.
  eexists _, _, _, _, _, _. split; [vm_compute; reflexivity|].
  split; [vm_compute; reflexivity|].
  split; [vm_compute; reflexivity|].
  split; [vm_compute; reflexivity|].
  split; [vm_compute; reflexivity|].
  split; [vm_compute; reflexivity|].
  intros Hgrows.
  edestruct (Hgrows "Product Manual") as [more Hmore];
    [vm_compute; reflexivity|].
  vm_compute in Hmore. discriminate Hmore.
Qed.

(** ** [add] on a file that is not there *)




(** ** Waiting for an upload *)

Lemma add_never fuel file_path display_name metadata chunking_config s :
  healthy s ->
  is_Some (local_files (world s) !! file_path) ->
  (forall k, op_states (world s) (next_operation (world s)) k = false) ->
  add fuel file_path display_name metadata chunking_config s = Timeout.
Proof.
  intros Hs [size Hfile] Hnever. unfold add. cbv zeta. unfold bind, gets.
  rewrite (upload_answered _ _ _ _ size) by (first [apply Hs | done]).
  rewrite wait_never; [done|exact Hs|].
  intros k. by rewrite polled_first_handle.
Qed.

Lemma replace_never fuel display_name new_file_path version metadata s :
  healthy s ->
  is_Some (local_files (world s) !! new_file_path) ->
  (forall k, op_states (world s) (next_operation (world s)) k = false) ->
  replace fuel display_name new_file_path version metadata s = Timeout.
Proof.
  intros Hs [size Hfile] Hnever. unfold replace, bind, gets.
  destruct version as [[|c r']|]; simpl;
    rewrite _find_document_answered by apply Hs; simpl;
    (destruct (_find_in (documents (world s)) display_name) as [doc|] eqn:Hfind;
     [ rewrite documents_delete_answered
         by (first [apply Hs | eauto using _find_in_elem])
     | simpl ]);
    rewrite (upload_answered _ _ _ _ size) by (first [apply Hs | done]);
    (rewrite wait_never; [done|exact Hs|]);
    intros k; rewrite polled_first_handle; apply Hnever.
Qed.

(** C9. The wait for an operation, from a state [s] and a first handle
    [operation]; [polled (world s) operation k] is the [done] flag of
    the [k]-th handle of the sequence the loop goes through.
    - A wait that returns has slept two seconds after each handle that
      was not done, and returns the first handle that is done.
    - With a backend that answers, the wait returns for some fuel
      exactly when some handle of the sequence is done; and when none
      is, the wait returns for no fuel: it goes on for ever.
    - [add] and [replace] return only when a handle of the operation of
      their upload is done; with a backend that answers, a file that is
      there and an operation that is never done, they return for no
      fuel. *)
Theorem wait_blocks_until_done (s : State) (operation : Operation) :
  (forall fuel r s',
     _wait_for_operation fuel operation s = Ret r s' ->
     exists k,
       k <= fuel /\
       (forall j, j < k -> polled (world s) operation j = false) /\
       polled (world s) operation k = true /\
       r = handle_at (world s) operation k /\
       op_done r = true /\
       slept (world s') = slept (world s) + 2 * k) /\
  (healthy s ->
   ((exists fuel r s', _wait_for_operation fuel operation s = Ret r s') <->
    (exists k, polled (world s) operation k = true))) /\
  (healthy s ->
   (forall k, polled (world s) operation k = false) ->
   forall fuel, _wait_for_operation fuel operation s = Timeout) /\
  (forall fuel file_path display_name metadata chunking_config r s',
     add fuel file_path display_name metadata chunking_config s = Ret r s' ->
     exists k, k <= fuel /\
       op_states (world s) (next_operation (world s)) k = true) /\
  (forall fuel display_name new_file_path version metadata r s',
     replace fuel display_name new_file_path version metadata s = Ret r s' ->
     exists k, k <= fuel /\
       op_states (world s) (next_operation (world s)) k = true) /\
  (healthy s ->
   (forall k, op_states (world s) (next_operation (world s)) k = false) ->
   forall fuel file_path,
     is_Some (local_files (world s) !! file_path) ->
     (forall display_name metadata chunking_config,
        add fuel file_path display_name metadata chunking_config s = Timeout) /\
     (forall display_name version metadata,
        replace fuel display_name file_path version metadata s = Timeout)).
Proof.
  split_and!.
  - intros fuel r s' Hrun.
    apply wait_Ret_inv in Hrun as (k & Hk & Hlt & Hp & -> & ->).
    exists k. by split_and!.
  - intros Hs. split.
    + intros (fuel & r & s' & Hrun).
      apply wait_Ret_inv in Hrun as (k & _ & _ & Hp & _). eauto.
    + intros [k Hk]. apply first_done in Hk as (k0 & _ & Hp & Hlt).
      exists k0. eexists _, _. by apply wait_returns.
  - intros Hs Hnever fuel. by apply wait_never.
  - intros fuel file_path display_name metadata chunking_config r s' Hrun.
    apply add_Ret_inv in Hrun as (size & k & _ & _ & Hk & _ & Hp & _). eauto.
  - intros fuel display_name new_file_path version metadata r s' Hrun.
    apply replace_Ret_inv in Hrun as (size & k & _ & _ & Hk & _ & Hp & _).
    eauto.
  - intros Hs Hnever fuel file_path Hfile. split; intros.
    + by apply add_never.
    + by apply replace_never.
Qed.

Lemma wait_blocks_until_done_witness :
  (exists fuel r s',
     _wait_for_operation fuel
       {| op_id := 4; op_polls := 0; op_done := false |}
       (example_state no_faults) = Ret r s') /\
  (forall fuel,
     _wait_for_operation fuel
       {| op_id := 4; op_polls := 0; op_done := false |}
       (example_state_with no_faults never_done) = Timeout) /\
  (forall fuel,
     add fuel "test_documents/faq.txt" None None None
       (example_state_with no_faults never_done) = Timeout) /\
  (forall fuel,
     replace fuel "FAQ Document" "test_documents/faq.txt" None None
       (example_state_with no_faults never_done) = Timeout).
Proof.
  destruct (wait_blocks_until_done (example_state no_faults)
              {| op_id := 4; op_polls := 0; op_done := false |})
    as (_ & Hiff & _).
  destruct (wait_blocks_until_done (example_state_with no_faults never_done)
              {| op_id := 4; op_polls := 0; op_done := false |})
    as (_ & _ & Hnever & _ & _ & Hcalls).
  split_and!.
  - apply Hiff; [intros k; reflexivity|]. exists 2. reflexivity.
  - apply Hnever; [intros k; reflexivity|]. intros [|k]; reflexivity.
  - intros fuel.
    apply (Hcalls (fun k => eq_refl) (fun k => eq_refl) fuel
             "test_documents/faq.txt"); by eexists.
  - intros fuel.
    apply (Hcalls (fun k => eq_refl) (fun k => eq_refl) fuel
             "test_documents/faq.txt"); by eexists.
Defined.

(** ** [add_batch] *)

Lemma batch_run_length fuel files s results s' :
  batch_run fuel files s results s' -> length results = length files.
Proof. induction 1; simpl; congruence. Qed.

Lemma add_batch_from_cons fuel f files results s :
  add_batch_from fuel (f :: files) results s =
  match add fuel (path f) (name f) (metadata f) None s with
  | Ret result s1 =>
      add_batch_from fuel files (results ++ [batch_result result]) s1
  | Raise e s1 =>
      add_batch_from fuel files
        (results ++ [batch_failure (path f) "failed" (str e)]) s1
  | Timeout => Timeout
  end.
Proof.
  simpl. unfold bind at 1, try_except, bind at 1.
  by destruct (add _ _ _ _ _ _).
Qed.

Lemma add_batch_from_never_raises fuel files results s e s' :
  add_batch_from fuel files results s <> Raise e s'.
Proof.
  revert results s. induction files as [|f files IH]; intros results s.
  - by unfold add_batch_from, ret.
  - rewrite add_batch_from_cons.
    destruct (add _ _ _ _ _ _); [apply IH..|done].
Qed.

Lemma add_batch_from_Ret fuel files results s out s' :
  add_batch_from fuel files results s = Ret out s' <->
  exists rest, out = results ++ rest /\ batch_run fuel files s rest s'.
Proof.
  revert results s. induction files as [|f files IH]; intros results s.
  - simpl. unfold ret. split.
    + intros [= <- <-]. exists []. rewrite app_nil_r. split; [done|constructor].
    + intros (rest & -> & Hrun). inversion Hrun; subst. by rewrite app_nil_r.
  - rewrite add_batch_from_cons. split.
    + destruct (add _ _ _ _ _ _) as [result s1|e s1|] eqn:Hadd; [| |done].
      * intros (rest & -> & Hrun)%IH. rewrite <- app_assoc.
        eexists. split; [done|]. by econstructor.
      * intros (rest & -> & Hrun)%IH. rewrite <- app_assoc.
        eexists. split; [done|]. by econstructor.
    + intros (rest & -> & Hrun). inversion Hrun as [| |]; subst.
      * match goal with H : add _ _ _ _ _ _ = _ |- _ => rewrite H end.
        apply IH. eexists. split; [|done]. by rewrite <- app_assoc.
      * match goal with H : add _ _ _ _ _ _ = _ |- _ => rewrite H end.
        apply IH. eexists. split; [|done]. by rewrite <- app_assoc.
Qed.

Lemma done_within_same_env fuel s s' :
  same_env s s' -> done_within fuel s -> done_within fuel s'.
Proof. intros (Hop & _) H id. rewrite Hop. apply H. Qed.

Lemma add_ends fuel file_path display_name metadata chunking_config s :
  done_within fuel s ->
  add fuel file_path display_name metadata chunking_config s <> Timeout.
Proof.
  intros Hdone. unfold add. cbv zeta. unfold bind, gets. cbv beta iota.
  destruct (upload_to_file_search_store _ _ _ _) as [op s1| |] eqn:Hup;
    [|done|by apply upload_ends in Hup].
  apply upload_Ret_inv in Hup as (size & _ & _ & -> & ->).
  destruct (Hdone (next_operation (world s))) as (k & Hk & Hp).
  destruct (_wait_for_operation _ _ _) as [op s2| |] eqn:Hwait;
    [by simpl|done|].
  eapply wait_ends in Hwait; [done| |done]. by rewrite polled_first_handle.
Qed.

Lemma add_batch_from_ends fuel files results s :
  done_within fuel s ->
  exists out s', add_batch_from fuel files results s = Ret out s'.
Proof.
  revert results s. induction files as [|f files IH]; intros results s Hdone.
  - simpl. unfold ret. eauto.
  - rewrite add_batch_from_cons.
    destruct (add _ _ _ _ _ _) as [result s1|e s1|] eqn:Hadd.
    + apply IH. eapply done_within_same_env; [|done].
      eapply keeps_Ret; [apply add_same_env|done].
    + apply IH. eapply done_within_same_env; [|done].
      eapply keeps_Raise; [apply add_same_env|done].
    + by apply add_ends in Hadd.
Qed.



(** * More properties of the manager *)

(** ** What every method keeps *)

#[local] Instance preserves_preorder P : PreOrder (preserves P).
Proof.
  split.
  - intros s H. exact H.
  - intros s1 s2 s3 H12 H23 H. by apply H23, H12.
Qed.

#[local] Instance keys_kept_preorder : PreOrder keys_kept.
Proof.
  split.
  - intros s n H. exact H.
  - intros s1 s2 s3 H12 H23 n H. by apply H23, H12.
Qed.

Lemma keeps_ends_in {A} P (m : M A) s :
  keeps (preserves P) m -> P s -> ends_in P (m s).
Proof.
  intros Hm Hs. specialize (Hm s). unfold ends_in.
  destruct (m s); [by apply Hm..|done].
Qed.

(** A relation between the state before and the state after that holds
    when the log is left alone and when one history is set and saved,
    is kept by every method. *)
Section kept_by_the_methods.
Context (R : relation State) `{!PreOrder R}.
Hypothesis R_same_log : forall s s', same_log s s' -> R s s'.
Hypothesis R_logged : forall s display_name older entry,
  default [] (version_log (self s) !! display_name) = older \/ older = [] ->
  R s (logged_state display_name (older ++ [entry]) s).

Ltac keeps_untouched :=
  solve [ apply (keeps_weaken same_log R); [exact R_same_log | keeps_auto] ].

Ltac keeps_head := apply keeps_bind; [apply _ | keeps_untouched | intros ?].

Lemma add_kept fuel file_path display_name metadata chunking_config :
  keeps R (add fuel file_path display_name metadata chunking_config).
Proof.
  unfold add. cbv zeta. do 3 keeps_head.
  intros s. unfold bind. simpl.
  apply (R_logged s _ []). by right.
Qed.

Lemma remove_kept display_name : keeps R (remove display_name).
Proof.
  unfold remove. keeps_head.
  destruct a as [doc|]; [|keeps_untouched].
  keeps_head.
  intros s. unfold bind, gets. simpl.
  destruct (version_log (self s) !! display_name) as [history|] eqn:Hhistory;
    simpl.
  - apply (R_logged s display_name history). left. by rewrite Hhistory.
  - reflexivity.
Qed.

Lemma replace_kept fuel display_name new_file_path version metadata :
  keeps R (replace fuel display_name new_file_path version metadata).
Proof.
  unfold replace.
  apply keeps_bind; [apply _| |intros v].
  { destruct version as [[|c r]|]; keeps_untouched. }
  keeps_head.
  apply keeps_bind; [apply _| |intros _].
  { destruct a as [doc|]; keeps_untouched. }
  cbv zeta. do 3 keeps_head.
  intros s. unfold bind. simpl.
  apply (R_logged s display_name). by left.
Qed.

Lemma clear_all_kept : keeps R clear_all.
Proof.
  apply (keeps_weaken same_log R); [exact R_same_log|exact clear_all_same_log].
Qed.

Lemma list_kept : keeps R list_.
Proof. unfold list_. do 2 keeps_head. keeps_untouched. Qed.

Lemma get_history_kept display_name : keeps R (get_history display_name).
Proof. unfold get_history. keeps_untouched. Qed.

Lemma add_batch_kept fuel files : keeps R (add_batch fuel files).
Proof.
  unfold add_batch. generalize (@nil BatchOutcome) as results.
  induction files as [|f files IH]; intros results; simpl.
  - apply keeps_ret, _.
  - apply keeps_bind; [apply _| |intros ?; apply IH].
    apply keeps_try_except; [apply _| |intros ?; apply keeps_ret, _].
    apply keeps_bind; [apply _|apply add_kept|intros ?; apply keeps_ret, _].
Qed.

Lemma remove_batch_kept display_names : keeps R (remove_batch display_names).
Proof.
  unfold remove_batch.
  generalize {| removed := []; not_found_names := [] |} as results.
  induction display_names as [|n names IH]; intros results; simpl.
  - apply keeps_ret, _.
  - apply keeps_bind; [apply _|apply remove_kept|intros ?; apply IH].
Qed.

End kept_by_the_methods.

#[local] Instance same_binding_preorder : PreOrder same_binding.
Proof.
  split.
  - by intros s.
  - intros s1 s2 s3 [??] [??]. unfold same_binding. split; congruence.
Qed.

Lemma in_sync_same_log s s' : same_log s s' -> preserves in_sync s s'.
Proof. intros [Hself Hdisk]. unfold preserves, in_sync. by rewrite Hself, Hdisk. Qed.

Lemma in_sync_logged s display_name history :
  in_sync (logged_state display_name history s).
Proof.
  unfold in_sync. simpl. rewrite lookup_insert_eq. apply json_load_dump.
Qed.

Lemma keys_kept_same_log s s' : same_log s s' -> keys_kept s s'.
Proof. intros [Hself _] n. by rewrite Hself. Qed.

Lemma keys_kept_logged s display_name history :
  keys_kept s (logged_state display_name history s).
Proof.
  intros n Hn. simpl. rewrite lookup_insert. by case_decide.
Qed.

Lemma histories_nonempty_same_log s s' :
  same_log s s' -> preserves histories_nonempty s s'.
Proof. intros [Hself _]. unfold preserves, histories_nonempty. by rewrite Hself. Qed.

Lemma histories_nonempty_logged s display_name older entry :
  preserves histories_nonempty s
    (logged_state display_name (older ++ [entry]) s).
Proof.
  intros Hs n history. simpl. rewrite lookup_insert. case_decide.
  - intros [= <-]. by destruct older.
  - apply Hs.
Qed.

Lemma same_binding_same_log s s' : same_log s s' -> same_binding s s'.
Proof. intros [Hself _]. unfold same_binding. by rewrite Hself. Qed.

(** Reading the log is without effect exactly when the file says what
    the object holds. *)
Lemma in_sync_iff_load s : in_sync s <-> _load_version_log s = Ret tt s.
Proof.
  unfold in_sync, _load_version_log, bind, gets, modify, raise. simpl.
  destruct s as [[store path log] w]. simpl.
  destruct (disk w !! path) as [j|]; [destruct (json_load j) as [log'|]|].
  - unfold set_version_log. simpl. split; [by intros [= ->]|].
    intros [= ->]. done.
  - split; [done|]. intros [=].
  - unfold set_version_log. simpl. split; [by intros ->|].
    by intros [= <-].
Qed.


Lemma in_sync_logged_example : in_sync saved_example.
Proof.
  unfold in_sync, saved_example. simpl.
  rewrite lookup_insert_eq. apply json_load_dump.
Defined.


Lemma keeps_ends_in_rel {A} (R : relation State) (P : State -> Prop)
    (m : M A) s :
  keeps R m -> (forall s', R s s' -> P s') -> ends_in P (m s).
Proof.
  intros Hm HP. specialize (Hm s). unfold ends_in.
  destruct (m s); [by apply HP..|done].
Qed.

(** X2. No method takes a display name out of the version log: a name
    that is a key of the log before [add], [add_batch], [remove],
    [remove_batch], [clear_all] or [replace] is a key of it after,
    whether the method returned or raised. *)
Theorem methods_keep_display_names (s : State) (display_name : string) :
  is_Some (version_log (self s) !! display_name) ->
  let logged s' := is_Some (version_log (self s') !! display_name) in
  (forall fuel file_path name metadata chunking_config,
     ends_in logged (add fuel file_path name metadata chunking_config s)) /\
  (forall fuel files, ends_in logged (add_batch fuel files s)) /\
  (forall name, ends_in logged (remove name s)) /\
  (forall names, ends_in logged (remove_batch names s)) /\
  ends_in logged (clear_all s) /\
  (forall fuel name new_file_path version metadata,
     ends_in logged (replace fuel name new_file_path version metadata s)).
Proof.
  intros Hs logged.
  assert (forall s s', same_log s s' -> keys_kept s s')
    as H1 by exact keys_kept_same_log.
  assert (forall s display_name older entry,
            default [] (version_log (self s) !! display_name) = older \/
            older = [] ->
            keys_kept s (logged_state display_name (older ++ [entry]) s))
    as H2.
  { intros ???? _. apply keys_kept_logged. }
  split_and!; intros; apply (keeps_ends_in_rel keys_kept);
    try (intros s' Hs'; by apply Hs').
  - apply (add_kept _ H1 H2).
  - apply (add_batch_kept _ H1 H2).
  - apply (remove_kept _ H1 H2).
  - apply (remove_batch_kept _ H1 H2).
  - apply (clear_all_kept _ H1).
  - apply (replace_kept _ H1 H2).
Qed.

Lemma methods_keep_display_names_witness :
  ends_in (fun s' => is_Some (version_log (self s') !! "FAQ Document"))
    (add 10 "test_documents/faq.txt" (Some "FAQ Document") None None
       (example_state no_faults)) /\
  ends_in (fun s' => is_Some (version_log (self s') !! "FAQ Document"))
    (remove "FAQ Document" (example_state no_faults)).
Proof.
  destruct (methods_keep_display_names (example_state no_faults)
              "FAQ Document") as (Hadd & _ & Hremove & _).
  - apply (bool_decide_unpack _). by vm_compute.
  - split; [apply Hadd|apply Hremove].
Defined.

(** X3. No method leaves a display name of the version log with an empty
    history: when every key of the log has at least one entry before
    [add], [add_batch], [remove], [remove_batch], [clear_all] or
    [replace], so it is after, whether the method returned or raised. *)
Theorem methods_keep_histories_nonempty (s : State) :
  histories_nonempty s ->
  (forall fuel file_path name metadata chunking_config,
     ends_in histories_nonempty
       (add fuel file_path name metadata chunking_config s)) /\
  (forall fuel files, ends_in histories_nonempty (add_batch fuel files s)) /\
  (forall name, ends_in histories_nonempty (remove name s)) /\
  (forall names, ends_in histories_nonempty (remove_batch names s)) /\
  ends_in histories_nonempty (clear_all s) /\
  (forall fuel name new_file_path version metadata,
     ends_in histories_nonempty
       (replace fuel name new_file_path version metadata s)).
Proof.
  intros Hs.
  assert (forall s s', same_log s s' -> preserves histories_nonempty s s')
    as H1 by exact histories_nonempty_same_log.
  assert (forall s display_name older entry,
            default [] (version_log (self s) !! display_name) = older \/
            older = [] ->
            preserves histories_nonempty s
              (logged_state display_name (older ++ [entry]) s)) as H2.
  { intros ???? _. apply histories_nonempty_logged. }
  split_and!; intros; apply keeps_ends_in; try done.
  - apply (add_kept _ H1 H2).
  - apply (add_batch_kept _ H1 H2).
  - apply (remove_kept _ H1 H2).
  - apply (remove_batch_kept _ H1 H2).
  - apply (clear_all_kept _ H1).
  - apply (replace_kept _ H1 H2).
Qed.

Lemma example_histories_nonempty : histories_nonempty (example_state no_faults).
Proof.
  intros n history. simpl. unfold example_log.
  rewrite lookup_insert. case_decide; [by intros [= <-]|].
  by intros [_ <-]%lookup_singleton_Some.
Defined.

Lemma methods_keep_histories_nonempty_witness :
  ends_in histories_nonempty
    (replace 10 "Product Manual" "test_documents/sample_manual.txt"
       (Some "2.0") None (example_state no_faults)) /\
  ends_in histories_nonempty (remove "FAQ Document" (example_state no_faults)).
Proof.
  destruct (methods_keep_histories_nonempty (example_state no_faults)
              example_histories_nonempty) as (_ & _ & Hremove & _ & _ & Hreplace).
  split; [apply Hreplace|apply Hremove].
Defined.

(** ** Building a manager *)

(** X4. [DocumentRepositoryManager(store_name, version_log_path)], the
    log path being the one given or, when none (or the empty string) is
    given, the store name followed by ["_versions.json"].
    - With no file at that path the object starts with an empty log.
    - With the dump of a log at that path it starts with that log.
    - In both cases it is bound to the store and the path, nothing in
      the world is changed, and the file says what the object holds. *)
Theorem init_reads_the_log (store : string) (log_path : option string)
    (w : World) :
  let p := str_or log_path (store +:+ "_versions.json") in
  (disk w !! p = None ->
   __init__ store log_path w =
     Ret tt {| self := {| store_name := store; version_log_path := p;
                          version_log := ∅ |};
               world := w |}) /\
  (forall log,
   disk w !! p = Some (json_dump log) ->
   __init__ store log_path w =
     Ret tt {| self := {| store_name := store; version_log_path := p;
                          version_log := log |};
               world := w |}) /\
  (forall s, __init__ store log_path w = Ret tt s -> in_sync s).
Proof.
  intros p. unfold __init__, _load_version_log, bind, gets, modify, raise.
  simpl. fold p. split_and!.
  - by intros ->.
  - intros log ->. by rewrite json_load_dump.
  - intros s. unfold in_sync.
    destruct (disk w !! p) as [j|] eqn:Hfile;
      [destruct (json_load j) as [log|] eqn:Hload|]; [|done|];
      intros [= <-]; simpl; by rewrite Hfile.
Qed.

Lemma init_reads_the_log_witness :
  __init__ "fileSearchStores/test-repo-manager" None
    (example_world no_faults done_at_second_poll) =
    Ret tt {| self := {| store_name := "fileSearchStores/test-repo-manager";
                         version_log_path :=
                           "fileSearchStores/test-repo-manager_versions.json";
                         version_log := ∅ |};
              world := example_world no_faults done_at_second_poll |} /\
  __init__ "fileSearchStores/test-repo-manager"
    (Some "test_repo_versions.json") (world saved_example) =
    Ret tt saved_example.
Proof.
  split.
  - destruct (init_reads_the_log "fileSearchStores/test-repo-manager" None
                (example_world no_faults done_at_second_poll))
      as (Hempty & _).
    apply Hempty. reflexivity.
  - destruct (init_reads_the_log "fileSearchStores/test-repo-manager"
                (Some "test_repo_versions.json") (world saved_example))
      as (_ & Hfile & _).
    apply (Hfile example_log). reflexivity.
Defined.

(** X5. A manager built anew on the same store and the same log path
    holds the same log: when the path is not empty and the file says
    what the object holds, building the object again in the same world
    gives the same state; and any state that reading the log leaves
    unchanged is one where the file says what the object holds. *)
Theorem restart_restores_the_log (s : State) :
  (version_log_path (self s) <> "" ->
   in_sync s ->
   __init__ (store_name (self s)) (Some (version_log_path (self s))) (world s)
     = Ret tt s) /\
  (_load_version_log s = Ret tt s -> in_sync s).
Proof.
  split; [|apply in_sync_iff_load].
  intros Hpath Hs. apply in_sync_iff_load in Hs.
  destruct s as [[store path log] w]. simpl in *.
  destruct path as [|c path]; [done|].
  unfold __init__. simpl.
  revert Hs. unfold _load_version_log, bind, gets, modify, raise. simpl.
  destruct (disk w !! String c path) as [j|];
    [destruct (json_load j) as [log'|]|]; [|done|]; unfold set_version_log;
    simpl; by intros [= ->].
Qed.

Lemma restart_restores_the_log_witness :
  __init__ "fileSearchStores/test-repo-manager"
    (Some "test_repo_versions.json") (world saved_example)
    = Ret tt saved_example.
Proof.
  destruct (restart_restores_the_log saved_example) as [Hrestart _].
  apply Hrestart; [discriminate|apply in_sync_logged_example].
Defined.

(** ** The scan for a document *)

(** X6. [_find_document(display_name)], the listing being answered,
    makes that one call and changes nothing else; it returns [None]
    exactly when no document of the listing has that display name, and
    otherwise the first document of the listing that has it. *)
Theorem _find_document_first_match (display_name : string) (s : State) :
  fault_at (world s) (next_call s) = None ->
  exists found s',
    _find_document display_name s = Ret found s' /\
    self s' = self s /\
    documents (world s') = documents (world s) /\
    disk (world s') = disk (world s) /\
    calls (world s') =
      calls (world s) ++ [documents_list_call (store_name (self s))] /\
    (found = None <->
     Forall (fun d => doc_display_name d <> display_name)
       (documents (world s))) /\
    (forall doc, found = Some doc ->
     exists before after,
       documents (world s) = before ++ doc :: after /\
       Forall (fun d => doc_display_name d <> display_name) before /\
       doc_display_name doc = display_name).
Proof.
  intros Hlist. rewrite _find_document_answered by done.
  eexists _, _. split; [reflexivity|]. simpl. split_and!; try done.
  - apply _find_in_None.
  - intros doc. apply _find_in_Some.
Qed.

Lemma _find_document_first_match_witness :
  exists s',
    _find_document "FAQ Document" (example_state no_faults) =
      Ret (Some (example_document 1 "FAQ Document")) s' /\
    calls (world s') =
      [documents_list_call "fileSearchStores/test-repo-manager"].
Proof.
  destruct (_find_document_first_match "FAQ Document"
              (example_state no_faults) eq_refl)
    as (found & s' & Hrun & _ & _ & _ & Hcalls & _).
  exists s'. split; [|exact Hcalls].
  rewrite Hrun. f_equal. vm_compute in Hrun. by injection Hrun as <- _.
Defined.

(** ** [remove_batch] *)

#[local] Instance in_store_dec docs display_name :
  Decision (in_store docs display_name).
Proof. unfold in_store. apply _. Defined.

Lemma remove_absent display_name s :
  fault_at (world s) (next_call s) = None ->
  _find_in (documents (world s)) display_name = None ->
  remove display_name s =
    Ret false
      (set_world (record_call (documents_list_call (store_name (self s)))) s).
Proof.
  intros Hlist Hfind. unfold remove, bind.
  by rewrite _find_document_answered, Hfind.
Qed.

Lemma remove_found display_name s doc :
  fault_at (world s) (next_call s) = None ->
  _find_in (documents (world s)) display_name = Some doc ->
  fault_at (world s) (S (next_call s)) = None ->
  remove display_name s = Ret true (remove_state display_name doc s).
Proof.
  intros Hlist Hfind Hdelete. unfold remove, bind.
  rewrite _find_document_answered, Hfind by done.
  rewrite documents_delete_answered;
    [|by rewrite next_call_recorded|eauto using _find_in_elem].
  unfold gets, remove_state. simpl.
  by destruct (version_log (self s) !! display_name).
Qed.

Lemma documents_remove_state display_name doc s :
  documents (world (remove_state display_name doc s)) =
  filter (fun d => doc_name d <> doc_name doc) (documents (world s)).
Proof.
  unfold remove_state. simpl.
  by destruct (version_log (self s) !! display_name).
Qed.

Lemma healthy_remove_state display_name doc s :
  healthy s -> healthy (remove_state display_name doc s).
Proof.
  intros Hs k. unfold remove_state. simpl.
  destruct (version_log (self s) !! display_name); apply Hs.
Qed.

(** Taking the first document of a display name out of the listing does
    not change what the scan finds for another display name. *)
Lemma _find_in_other before doc after display_name :
  doc_display_name doc <> display_name ->
  _find_in (before ++ after) display_name =
  _find_in (before ++ doc :: after) display_name.
Proof.
  intros Hne. induction before as [|d before IH]; simpl.
  - by destruct (String.eqb_spec (doc_display_name doc) display_name).
  - by rewrite IH.
Qed.

Lemma filter_ext_elem {A} (P Q : A -> Prop)
    `{!forall x, Decision (P x)} `{!forall x, Decision (Q x)} (l : list A) :
  (forall x, x ∈ l -> P x <-> Q x) -> filter P l = filter Q l.
Proof.
  induction l as [|x l IH]; intros HPQ; [done|].
  rewrite !filter_cons. rewrite IH by (intros; apply HPQ; by right).
  destruct (decide (P x)) as [HP|HP], (decide (Q x)) as [HQ|HQ]; try done.
  - destruct HQ. apply HPQ; [by left|done].
  - destruct HP. apply HPQ; [by left|done].
Qed.

Lemma NoDup_doc_name_sublist (l k : list Document) :
  sublist l k -> NoDup (doc_name <$> k) -> NoDup (doc_name <$> l).
Proof.
  intros Hsub Hk. eapply sublist_NoDup; [exact Hk|]. by apply fmap_sublist.
Qed.

Lemma remove_batch_from_partition names results s :
  healthy s ->
  NoDup (doc_name <$> documents (world s)) ->
  NoDup names ->
  exists s',
    remove_batch_from names results s =
      Ret {| removed :=
               removed results ++
               filter (in_store (documents (world s))) names;
             not_found_names :=
               not_found_names results ++
               filter (fun n => ~ in_store (documents (world s)) n) names |}
          s' /\
    sublist (documents (world s')) (documents (world s)) /\
    length (documents (world s')) +
      length (filter (in_store (documents (world s))) names) =
    length (documents (world s)).
Proof.
  revert results s.
  induction names as [|n names IH]; intros results s Hs Hids Hnames.
  - exists s. simpl. destruct results. simpl. rewrite !app_nil_r.
    split_and!; [done|done|lia].
  - apply NoDup_cons in Hnames as [Hn Hnames]. simpl. unfold bind.
    destruct (_find_in (documents (world s)) n) as [doc|] eqn:Hfind.
    + rewrite (remove_found _ _ doc) by (first [apply Hs | done]).
      destruct (_find_in_Some _ _ _ Hfind)
        as (before & after & Hdocs & Hbefore & Hdoc).
      assert (documents (world (remove_state n doc s)) = before ++ after)
        as Hdocs'.
      { rewrite documents_remove_state, Hdocs.
        apply filter_out_unique. by rewrite <- Hdocs. }
      assert (sublist (before ++ after) (documents (world s))) as Hsub.
      { rewrite Hdocs. apply sublist_app; [done|]. by apply sublist_cons. }
      destruct (IH {| removed := removed results ++ [n];
                      not_found_names := not_found_names results |}
                  (remove_state n doc s)) as (s' & -> & Hsub' & Hlen).
      * by apply healthy_remove_state.
      * rewrite Hdocs'. by eapply NoDup_doc_name_sublist.
      * done.
      * exists s'. rewrite Hdocs' in *.
        assert (forall m, m ∈ names ->
                  in_store (before ++ after) m <->
                  in_store (documents (world s)) m) as Hsame.
        { intros m Hm. unfold in_store.
          rewrite Hdocs, <- _find_in_other; [done|].
          intros Heq. apply Hn. by rewrite <- Hdoc, Heq. }
        rewrite (filter_ext_elem (in_store (before ++ after))
                   (in_store (documents (world s)))) in * by done.
        rewrite (filter_ext_elem (fun m => ~ in_store (before ++ after) m)
                   (fun m => ~ in_store (documents (world s)) m))
          by (intros m Hm; by rewrite Hsame).
        rewrite !filter_cons.
        destruct (decide (in_store (documents (world s)) n)) as [_|Hno];
          [|destruct Hno; unfold in_store; by rewrite Hfind].
        destruct (decide (~ in_store (documents (world s)) n)) as [Hno|_];
          [destruct Hno; unfold in_store; by rewrite Hfind|].
        simpl. rewrite <- app_assoc. split_and!; [done|by etrans|].
        assert (length (documents (world s)) = S (length (before ++ after)))
          by (rewrite Hdocs, !length_app; simpl; lia).
        lia.
    + rewrite remove_absent by (first [apply Hs | done]).
      destruct (IH {| removed := removed results;
                      not_found_names := not_found_names results ++ [n] |}
                  (set_world (record_call
                     (documents_list_call (store_name (self s)))) s))
        as (s' & -> & Hsub' & Hlen); [done..|].
      exists s'. simpl in *. rewrite !filter_cons.
      destruct (decide (in_store (documents (world s)) n)) as [Hyes|_];
        [unfold in_store in Hyes; rewrite Hfind in Hyes; by destruct Hyes|].
      destruct (decide (~ in_store (documents (world s)) n)) as [_|Hno];
        [|destruct Hno; unfold in_store; rewrite Hfind; by intros [??]].
      simpl. rewrite <- app_assoc. by split_and!.
Qed.

(** X7. [remove_batch(display_names)] on names that are all different,
    with a backend that answers and identifiers that are unique: the
    names that had a document when the batch started are in ['removed'],
    the others in ['not_found'], each list in the order of the input;
    one document is gone for each removed name and the other documents
    stay in their order. *)
Theorem remove_batch_partition (display_names : list string) (s : State) :
  healthy s ->
  NoDup (doc_name <$> documents (world s)) ->
  NoDup display_names ->
  exists s',
    remove_batch display_names s =
      Ret {| removed := filter (in_store (documents (world s))) display_names;
             not_found_names :=
               filter (fun n => ~ in_store (documents (world s)) n)
                 display_names |} s' /\
    sublist (documents (world s')) (documents (world s)) /\
    length (documents (world s')) +
      length (filter (in_store (documents (world s))) display_names) =
    length (documents (world s)).
Proof.
  intros Hs Hids Hnames.
  apply (remove_batch_from_partition display_names
           {| removed := []; not_found_names := [] |} s Hs Hids Hnames).
Qed.

Lemma remove_batch_partition_witness :
  exists s',
    remove_batch ["nonexistent.txt"; "api_reference.txt"; "FAQ Document"]
      (example_state no_faults) =
      Ret {| removed := ["api_reference.txt"; "FAQ Document"];
             not_found_names := ["nonexistent.txt"] |} s' /\
    length (documents (world s')) = 2.
Proof.
  destruct (remove_batch_partition
              ["nonexistent.txt"; "api_reference.txt"; "FAQ Document"]
              (example_state no_faults))
    as (s' & Hrun & _ & Hlen).
  - intros k. reflexivity.
  - apply (bool_decide_unpack _). by vm_compute.
  - apply (bool_decide_unpack _). by vm_compute.
  - exists s'. split; [exact Hrun|].
    assert (length (filter (in_store (documents (world (example_state no_faults))))
                      ["nonexistent.txt"; "api_reference.txt"; "FAQ Document"])
            = 2) as Hremoved by (vm_compute; reflexivity).
    rewrite Hremoved in Hlen. simpl in Hlen. lia.
Defined.

Lemma remove_batch_from_app names1 names2 results s :
  remove_batch_from (names1 ++ names2) results s =
  bind (remove_batch_from names1 results)
       (fun results1 => remove_batch_from names2 results1) s.
Proof.
  revert results s. induction names1 as [|n names1 IH]; intros results s.
  - reflexivity.
  - simpl. unfold bind.
    destruct (remove n s) as [found s1|e s1|]; [apply IH|done..].
Qed.

(** X8. [remove_batch] does not absorb an exception: when the names
    before [display_name] have been dealt with and [remove] raises on
    [display_name], the batch raises that exception there; the names
    after it are not tried, the partial result is not returned, and the
    state is the one the failed [remove] left, with what was removed
    before still removed. *)
Theorem remove_batch_aborts (before : list string) (display_name : string)
    (after : list string) (s : State) (partial : RemoveBatchResult)
    (s1 : State) (e : Exn) (s2 : State) :
  remove_batch before s = Ret partial s1 ->
  remove display_name s1 = Raise e s2 ->
  remove_batch (before ++ display_name :: after) s = Raise e s2.
Proof.
  intros Hbefore Hremove. unfold remove_batch in *.
  rewrite remove_batch_from_app. unfold bind at 1. rewrite Hbefore.
  simpl. unfold bind. by rewrite Hremove.
Qed.

Lemma remove_batch_aborts_witness :
  exists s2,
    remove_batch ["FAQ Document"; "Product Manual"; "api_reference.txt"]
      (example_state (fault_on 3)) = Raise unavailable s2 /\
    documents (world s2) = [ example_document 0 "Product Manual";
                             example_document 2 "api_reference.txt";
                             example_document 3 "FAQ Document" ].
Proof.
  eexists. split.
  - eapply (remove_batch_aborts ["FAQ Document"] "Product Manual"
              ["api_reference.txt"] (example_state (fault_on 3))).
    + vm_compute. reflexivity.
    + vm_compute. reflexivity.
  - vm_compute. reflexivity.
Defined.

(** ** Methods that stop half way *)

Lemma next_call_delete_state name force s :
  next_call (delete_state name force s) = S (next_call s).
Proof. unfold next_call. simpl. rewrite length_app. simpl. lia. Qed.

Lemma clear_all_from_fails pager count s k e :
  documents (world s) = pager ->
  NoDup (doc_name <$> pager) ->
  k < length pager ->
  (forall i, i < k -> fault_at (world s) (next_call s + i) = None) ->
  fault_at (world s) (next_call s + k) = Some e ->
  exists s',
    clear_all_from pager count s = Raise e s' /\
    documents (world s') = drop k pager /\
    same_log s s' /\
    calls (world s') =
      calls (world s) ++
      ((fun d => documents_delete_call (doc_name d) true) <$> take (S k) pager).
Proof.
  revert pager count s.
  induction k as [|k IH]; intros pager count s Hdocs Hids Hk Hbefore Hfault;
    destruct pager as [|doc rest]; simpl in Hk; try lia.
  - rewrite Nat.add_0_r in Hfault. simpl. unfold bind.
    rewrite (documents_delete_failed _ _ _ e) by done.
    eexists. split; [reflexivity|]. by simpl.
  - simpl. unfold bind.
    rewrite documents_delete_answered; cycle 1.
    { specialize (Hbefore 0). rewrite Nat.add_0_r in Hbefore.
      apply Hbefore. lia. }
    { rewrite Hdocs, fmap_cons. by left. }
    destruct (IH rest (count + 1) (delete_state (doc_name doc) true s))
      as (s' & -> & Hdrop & [Hself Hdisk] & Hcalls).
    + simpl. rewrite Hdocs. by apply (filter_out_unique []).
    + by apply NoDup_cons in Hids as [_ ?].
    + lia.
    + intros i Hi. rewrite next_call_delete_state.
      replace (S (next_call s) + i) with (next_call s + S i) by lia.
      apply Hbefore. lia.
    + rewrite next_call_delete_state.
      by replace (S (next_call s) + k) with (next_call s + S k) by lia.
    + exists s'. split_and!; try done.
      rewrite Hcalls. simpl. by rewrite <- app_assoc.
Qed.

(** X9. [clear_all] is not all or nothing.  With the listing answered,
    identifiers unique, the first [k] deletes answered and the next one
    raising [e]: [clear_all] raises [e]; the first [k] documents of the
    listing are gone and the others are still there, in their order;
    the count is lost; the object and the log file are as before. *)
Theorem clear_all_stops_at_failure (s : State) (k : nat) (e : Exn) :
  fault_at (world s) (next_call s) = None ->
  NoDup (doc_name <$> documents (world s)) ->
  k < length (documents (world s)) ->
  (forall i, i < k -> fault_at (world s) (S (next_call s) + i) = None) ->
  fault_at (world s) (S (next_call s) + k) = Some e ->
  exists s',
    clear_all s = Raise e s' /\
    documents (world s') = drop k (documents (world s)) /\
    self s' = self s /\
    disk (world s') = disk (world s).
Proof.
  intros Hlist Hids Hk Hbefore Hfault.
  unfold clear_all, documents_list, bind, gets.
  rewrite backend_call_answered by done. simpl.
  destruct (clear_all_from_fails (documents (world s)) 0
              (set_world (record_call
                 (documents_list_call (store_name (self s)))) s) k e)
    as (s' & -> & Hdrop & [Hself Hdisk] & _); try done.
  - intros i Hi. rewrite next_call_recorded. by apply Hbefore.
  - by rewrite next_call_recorded.
  - by exists s'.
Qed.

Lemma clear_all_stops_at_failure_witness :
  exists s',
    clear_all (example_state (fault_on 3)) = Raise unavailable s' /\
    documents (world s') = [ example_document 2 "api_reference.txt";
                             example_document 3 "FAQ Document" ] /\
    self s' = self (example_state (fault_on 3)) /\
    disk (world s') = disk (world (example_state (fault_on 3))).
Proof.
  apply (clear_all_stops_at_failure (example_state (fault_on 3)) 2 unavailable).
  - reflexivity.
  - apply (bool_decide_unpack _). by vm_compute.
  - simpl. lia.
  - intros [|[|i]] Hi; [reflexivity..|lia].
  - reflexivity.
Defined.

(** X10. [add] is not all or nothing.  When the upload is answered, its
    operation is not done at once, and the first poll raises [e] (the
    loop having fuel for it): [add] raises [e]; the document is in the
    store, under the display name of the call; and the version log has
    no entry for it: the object and the log file are as before. *)
Theorem add_poll_failure (fuel : nat) (file_path : string)
    (display_name : option string) (metadata : option (list Metadata))
    (chunking_config : option json) (s : State) (size : nat) (e : Exn) :
  fault_at (world s) (next_call s) = None ->
  local_files (world s) !! file_path = Some size ->
  op_states (world s) (next_operation (world s)) 0 = false ->
  0 < fuel ->
  fault_at (world s) (S (next_call s)) = Some e ->
  exists s',
    add fuel file_path display_name metadata chunking_config s = Raise e s' /\
    documents (world s') =
      documents (world s) ++
      [uploaded (add_config file_path display_name metadata chunking_config)
         size (world s)] /\
    self s' = self s /\
    disk (world s') = disk (world s).
Proof.
  intros Hupload Hfile Hpending Hfuel Hpoll.
  unfold add. cbv zeta. unfold bind, gets.
  rewrite (upload_answered _ _ _ _ size) by done.
  destruct fuel as [|fuel]; [lia|].
  rewrite (wait_poll_failed _ _ _ e); [|done|].
  - eexists. split; [reflexivity|]. by destruct s.
  - unfold upload_state. simpl.
    replace (next_call _) with (S (next_call s)); [done|].
    unfold next_call. simpl. rewrite length_app. simpl. lia.
Qed.

Lemma add_poll_failure_witness :
  exists s',
    add 10 "test_documents/faq.txt" (Some "FAQ v2") None None
      (example_state (fault_on 1)) = Raise unavailable s' /\
    documents (world s') =
      documents (world (example_state (fault_on 1))) ++
      [ {| doc_name := 4; doc_display_name := "FAQ v2";
           doc_state := "STATE_ACTIVE"; doc_size_bytes := 512;
           doc_custom_metadata := [] |} ] /\
    self s' = self (example_state (fault_on 1)) /\
    disk (world s') = disk (world (example_state (fault_on 1))).
Proof.
  apply (add_poll_failure 10 "test_documents/faq.txt" (Some "FAQ v2") None
           None (example_state (fault_on 1)) 512 unavailable);
    [reflexivity|reflexivity|reflexivity|lia|reflexivity].
Defined.



(** ** Documents that share a display name *)

Lemma count_named_app display_name l k :
  count_named display_name (l ++ k) =
  count_named display_name l + count_named display_name k.
Proof. unfold count_named. by rewrite filter_app, length_app. Qed.

Lemma count_named_cons display_name d l :
  count_named display_name (d :: l) =
  (if decide (doc_display_name d = display_name) then 1 else 0) +
  count_named display_name l.
Proof. unfold count_named. rewrite filter_cons. by case_decide. Qed.

Lemma count_named_none display_name docs :
  Forall (fun d => doc_display_name d <> display_name) docs ->
  count_named display_name docs = 0.
Proof.
  induction 1 as [|d docs Hd _ IH]; [done|].
  rewrite count_named_cons, IH. by case_decide.
Qed.

Lemma _find_in_app_Some docs more display_name doc :
  _find_in docs display_name = Some doc ->
  _find_in (docs ++ more) display_name = Some doc.
Proof.
  induction docs as [|d docs IH]; simpl; [done|].
  by destruct (String.eqb (doc_display_name d) display_name).
Qed.

(** X12. [replace] and the number of documents of a display name, the
    identifiers being unique.  When [replace(display_name, ...)]
    returns, the store has as many documents of that display name as
    before, or one when it had none: of several documents that share
    the name only the first is replaced.  The documents of the other
    display names are as before, in their order. *)
Theorem replace_keeps_count (fuel : nat) (display_name new_file_path : string)
    (version : option string) (metadata : option (list Metadata))
    (s : State) (r : ReplaceResult) (s' : State) :
  replace fuel display_name new_file_path version metadata s = Ret r s' ->
  NoDup (doc_name <$> documents (world s)) ->
  count_named display_name (documents (world s')) =
    Nat.max 1 (count_named display_name (documents (world s))) /\
  (forall other, other <> display_name ->
     filter (fun d => doc_display_name d = other) (documents (world s')) =
     filter (fun d => doc_display_name d = other) (documents (world s))).
Proof.
  intros Hrun Hids.
  apply replace_Ret_inv in Hrun
    as (size & k & _ & _ & _ & _ & _ & _ & _ & Hdocs & _).
  rewrite Hdocs. clear Hdocs.
  destruct (_find_in (documents (world s)) display_name) as [doc|] eqn:Hfind.
  - destruct (_find_in_Some _ _ _ Hfind)
      as (before & after & Hsplit & Hbefore & Hdoc).
    rewrite Hsplit in Hids |- *. rewrite filter_out_unique by done.
    split.
    + unfold count_named.
      rewrite !filter_app, !filter_cons, filter_nil, !decide_True by done.
      rewrite !length_app. simpl. lia.
    + intros other Hother.
      rewrite !filter_app, !filter_cons, filter_nil. simpl.
      rewrite !decide_False by congruence. by rewrite app_nil_r.
  - apply _find_in_None in Hfind. split.
    + rewrite count_named_app, (count_named_none _ (documents (world s)))
        by done.
      unfold count_named. by rewrite filter_cons, decide_True.
    + intros other Hother.
      rewrite filter_app, filter_cons, filter_nil. simpl.
      rewrite decide_False by congruence. by rewrite app_nil_r.
Qed.

Lemma replace_keeps_count_witness :
  exists r s',
    replace 10 "FAQ Document" "test_documents/faq.txt" (Some "2.0") None
      (example_state no_faults) = Ret r s' /\
    count_named "FAQ Document" (documents (world s')) = 2.
Proof.
  destruct (replace 10 "FAQ Document" "test_documents/faq.txt" (Some "2.0")
              None (example_state no_faults)) as [r s'| |] eqn:Hrun;
    [|vm_compute in Hrun; discriminate..].
  exists r, s'. split; [done|].
  destruct (replace_keeps_count _ _ _ _ _ _ _ _ Hrun) as [Hcount _].
  - apply (bool_decide_unpack _). by vm_compute.
  - rewrite Hcount. reflexivity.
Defined.





(** ** [connect_or_create] *)

Lemma _find_store_Some pager display_name store :
  _find_store pager display_name = Some store ->
  exists before after,
    pager = before ++ store :: after /\
    Forall (fun st => fss_display_name st <> display_name) before /\
    fss_display_name store = display_name.
Proof.
  induction pager as [|st pager IH]; simpl; [done|].
  destruct (String.eqb_spec (fss_display_name st) display_name) as [Heq|Hne].
  - intros [= ->]. by exists [], pager.
  - intros (before & after & -> & ? & ?)%IH.
    exists (st :: before), after. split_and!; [done| |done]. by constructor.
Qed.

Lemma _find_store_app_Some pager more display_name store :
  _find_store pager display_name = Some store ->
  _find_store (pager ++ more) display_name = Some store.
Proof.
  induction pager as [|st pager IH]; simpl; [done|].
  by destruct (String.eqb (fss_display_name st) display_name).
Qed.

Lemma _find_store_snoc pager display_name name :
  _find_store pager display_name = None ->
  _find_store
    (pager ++ [{| fss_name := name; fss_display_name := display_name |}])
    display_name =
  Some {| fss_name := name; fss_display_name := display_name |}.
Proof.
  induction pager as [|st pager IH]; simpl.
  - by rewrite String.eqb_refl.
  - by destruct (String.eqb (fss_display_name st) display_name).
Qed.

(** X15. [connect_or_create(display_name)], the store service
    answering.  When a store of that display name is listed, no store is
    created and the object is built on the first such store of the
    listing; when none is, one store is created under that display name,
    after the others, and the object is built on it.  In both cases the
    object is built with no log path, so that its log file is the name
    of the store followed by ["_versions.json"]. *)
Theorem connect_or_create_binds (display_name : string) (svc : StoreService)
    (w : World) :
  stores_healthy svc ->
  (forall store,
     _find_store (stores svc) display_name = Some store ->
     exists svc' before after,
       connect_or_create display_name svc w =
         Connected svc' (__init__ (fss_name store) None w) /\
       stores svc' = stores svc /\
       stores svc = before ++ store :: after /\
       Forall (fun st => fss_display_name st <> display_name) before /\
       fss_display_name store = display_name) /\
  (_find_store (stores svc) display_name = None ->
   exists svc' store,
     connect_or_create display_name svc w =
       Connected svc' (__init__ (fss_name store) None w) /\
     store = {| fss_name := fresh_store_name svc (stores_created svc);
                fss_display_name := display_name |} /\
     stores svc' = stores svc ++ [store]).
Proof.
  intros Hsvc. unfold connect_or_create. rewrite Hsvc. simpl. split.
  - intros store Hfind. rewrite Hfind.
    destruct (_find_store_Some _ _ _ Hfind) as (before & after & ? & ? & ?).
    eexists _, before, after. split; [reflexivity|]. by split_and!.
  - intros ->. rewrite Hsvc.
    eexists _, {| fss_name := fresh_store_name svc (stores_created svc);
                  fss_display_name := display_name |}.
    split; [reflexivity|]. by split.
Qed.

Lemma connect_or_create_binds_witness :
  (exists svc',
     connect_or_create "docs" example_stores
       (example_world no_faults done_at_second_poll) =
       Connected svc'
         (__init__ "fileSearchStores/docs-1" None
            (example_world no_faults done_at_second_poll)) /\
     stores svc' = stores example_stores) /\
  (exists svc',
     connect_or_create "manuals" example_stores
       (example_world no_faults done_at_second_poll) =
       Connected svc'
         (__init__ "fileSearchStores/new-000" None
            (example_world no_faults done_at_second_poll)) /\
     stores svc' =
       stores example_stores ++
       [ {| fss_name := "fileSearchStores/new-000";
            fss_display_name := "manuals" |} ]).
Proof.
  split.
  - destruct (connect_or_create_binds "docs" example_stores
                (example_world no_faults done_at_second_poll))
      as [Hfound _]; [by intros k|].
    destruct (Hfound {| fss_name := "fileSearchStores/docs-1";
                        fss_display_name := "docs" |} eq_refl)
      as (svc' & before & after & Hrun & Hstores & _).
    by exists svc'.
  - destruct (connect_or_create_binds "manuals" example_stores
                (example_world no_faults done_at_second_poll))
      as [_ Hcreated]; [by intros k|].
    destruct (Hcreated eq_refl) as (svc' & store & Hrun & -> & Hstores).
    by exists svc'.
Defined.

(** X16. Calling [connect_or_create] a second time with the same
    display name, the store service answering, creates no store and
    builds the object on the same store as the first call, whether the
    first call found the store or created it. *)
Theorem connect_or_create_twice (display_name : string) (svc : StoreService)
    (w w' : World) :
  stores_healthy svc ->
  exists store svc1 svc2,
    connect_or_create display_name svc w =
      Connected svc1 (__init__ (fss_name store) None w) /\
    connect_or_create display_name svc1 w' =
      Connected svc2 (__init__ (fss_name store) None w') /\
    stores svc2 = stores svc1 /\
    fss_display_name store = display_name /\
    store ∈ stores svc1.
Proof.
  intros Hsvc. unfold connect_or_create. rewrite !Hsvc. simpl.
  destruct (_find_store (stores svc) display_name) as [store|] eqn:Hfind.
  - eexists store, _, _. split; [reflexivity|]. simpl.
    rewrite Hsvc, Hfind. split; [reflexivity|]. simpl.
    destruct (_find_store_Some _ _ _ Hfind) as (before & after & -> & _ & ?).
    split_and!; [done..|]. set_solver.
  - rewrite Hsvc.
    eexists {| fss_name := fresh_store_name svc (stores_created svc);
               fss_display_name := display_name |}, _, _.
    split; [reflexivity|]. simpl.
    rewrite Hsvc, _find_store_snoc by done.
    split; [reflexivity|]. simpl. split_and!; [done..|]. set_solver.
Qed.

Lemma connect_or_create_twice_witness :
  exists svc1 svc2,
    connect_or_create "manuals" example_stores
      (example_world no_faults done_at_second_poll) =
      Connected svc1
        (__init__ "fileSearchStores/new-000" None
           (example_world no_faults done_at_second_poll)) /\
    connect_or_create "manuals" svc1 (world saved_example) =
      Connected svc2
        (__init__ "fileSearchStores/new-000" None (world saved_example)) /\
    stores svc2 = stores svc1.
Proof.
  destruct (connect_or_create_twice "manuals" example_stores
              (example_world no_faults done_at_second_poll)
              (world saved_example))
    as (store & svc1 & svc2 & Hfirst & Hsecond & Hstores & _);
    [by intros k|].
  exists svc1, svc2.
  assert (fss_name store = "fileSearchStores/new-000") as Hname.
  { vm_compute in Hfirst. by injection Hfirst as _ Hname. }
  by rewrite <- Hname.
Defined.

(** ** The environment check *)

(** X17. [validate_environment()] returns exactly when
    [GEMINI_API_KEY] is set to a string that is not empty; a variable
    that is unset and one that is set to the empty string are both
    missing, and then a [ValueError] that names the variable is
    raised. *)
Theorem validate_environment_spec (environ : gmap string string) :
  (validate_environment environ = inr tt <->
   exists key, environ !! "GEMINI_API_KEY" = Some key /\ key <> "") /\
  (validate_environment environ <> inr tt ->
   validate_environment environ =
     inl {| exn_class := "ValueError";
            exn_message :=
              "Missing environment variables: GEMINI_API_KEY" |}).
Proof.
  unfold validate_environment. cbv zeta. simpl.
  destruct (environ !! "GEMINI_API_KEY") as [[|c key]|] eqn:Hkey; simpl.
  - split; [|done]. split; [done|]. by intros (key & [= <-] & ?).
  - split; [|done]. split; [|done]. intros _. by exists (String c key).
  - split; [|done]. split; [done|]. by intros (key & ? & ?).
Qed.

Lemma validate_environment_spec_witness :
  validate_environment {[ "GEMINI_API_KEY" := "" ]} =
    inl {| exn_class := "ValueError";
           exn_message := "Missing environment variables: GEMINI_API_KEY" |}.
Proof.
  destruct (validate_environment_spec {[ "GEMINI_API_KEY" := "" ]})
    as [Hreturns Hraises].
  apply Hraises. intros Hok. apply Hreturns in Hok as (key & Hkey & Hne).
  apply lookup_singleton_Some in Hkey as [_ <-]. by destruct Hne.
Defined.
